(** * go-choice: the selection, navigation and filtering core of the picker

    A shallow embedding of [choice.go] (the picker with incremental
    search: [pick], [computePageSize], [move], [moveUp], [moveDown]) and of
    the [render] function of the earlier revision of the package, together
    with the properties the specification states about them.

    Conventions of the embedding.
    - Go's [int] is a 64-bit two's complement integer: values are [Z] and
      every addition, subtraction and negation of the source goes through
      [GoInt.wrap].
    - A Go [string] is a sequence of bytes: [string] of the standard
      library, one [ascii] per byte.
    - [choices []*Choice] holds pointers to distinct heap cells that are
      mutated in place.  The cells are kept in a list in slice order and a
      [*Choice] is the position of its cell, so two copies of a pointer see
      the same flags.
    - A panic is a value of the error monad [Res]. *)

From Stdlib Require Import ZArith Lia Bool Ascii.
From stdpp Require Import base list sorting strings.

(** ** Machine integers *)

Module GoInt.
Local Open Scope Z_scope.

Definition min_int : Z := - 2 ^ 63.
Definition max_int : Z := 2 ^ 63 - 1.

Definition in_range (z : Z) : Prop := min_int <= z <= max_int.

(** The value an [int] holds after an operation whose exact result is [z]. *)
Definition wrap (z : Z) : Z := (z + 2 ^ 63) mod 2 ^ 64 - 2 ^ 63.

Definition add (a b : Z) : Z := wrap (a + b).
Definition sub (a b : Z) : Z := wrap (a - b).
Definition neg (a : Z) : Z := wrap (- a).

End GoInt.

(** ** The error monad: a computation returns or panics *)

Inductive Fault : Type :=
| SomethingWentWrong   (* the explicit panic at the end of move *)
| IndexOutOfRange      (* slice index out of range *)
| NilDereference.      (* field access through a nil pointer *)

Inductive Res (A : Type) : Type :=
| Ok (a : A)
| Panic (f : Fault).
Arguments Ok {A} a.
Arguments Panic {A} f.

#[global] Instance Res_ret : MRet Res := fun A a => Ok a.

#[global] Instance Res_bind : MBind Res := fun A B k m =>
  match m with
  | Ok a => k a
  | Panic f => Panic f
  end.

(** ** Choices and the heap *)

Record Choice : Type := mkChoice {
  Id : Z;
  Value : string;
  Selected : bool;
  hidden : bool
}.

Definition with_Selected (b : bool) (c : Choice) : Choice :=
  {| Id := Id c; Value := Value c; Selected := b; hidden := hidden c |}.

Definition with_hidden (b : bool) (c : Choice) : Choice :=
  {| Id := Id c; Value := Value c; Selected := Selected c; hidden := b |}.

(** A [*Choice]: the position of the cell in the slice. *)
Abbreviation Ptr := nat (only parsing).

(** [p.Selected = b] *)
Definition set_Selected (b : bool) (p : Ptr) (h : list Choice) : list Choice :=
  alter (with_Selected b) p h.

(** [s[z]] for a slice of pointers, with Go's bounds check. *)
Definition index (s : list Ptr) (z : Z) : Res Ptr :=
  if (z <? 0)%Z then Panic IndexOutOfRange
  else match s !! Z.to_nat z with
       | Some p => Ok p
       | None => Panic IndexOutOfRange
       end.

(** ** move *)

(** The first loop of [move], over the cells from position [p] on: the
    cells after the loop, [choicesNotHidden] and [selectedChoiceExists]. *)
Fixpoint collect (p : Ptr) (choices : list Choice)
  : list Choice * list Ptr * bool :=
  match choices with
  | [] => ([], [], false)
  | choice :: rest =>
      let '(rest', choicesNotHidden, selectedChoiceExists) := collect (S p) rest in
      if negb (hidden choice) then
        (choice :: rest', p :: choicesNotHidden,
         (if Selected choice then true else selectedChoiceExists))
      else
        ((if Selected choice then with_Selected false choice else choice) :: rest',
         choicesNotHidden, selectedChoiceExists)
  end.

(** The second loop of [move]: [rest] is what is left of
    [choicesNotHidden] from index [i] on. *)
Fixpoint scan (h : list Choice) (choicesNotHidden : list Ptr) (increment : Z)
    (i : nat) (rest : list Ptr) : Res (option Ptr * list Choice) :=
  match rest with
  | [] => Panic SomethingWentWrong
  | p :: rest' =>
      match h !! p with
      | None => Panic NilDereference
      | Some choice =>
          if Selected choice then
            let len := Z.of_nat (length choicesNotHidden) in
            let t := GoInt.add (Z.of_nat i) increment in
            if (t <? len)%Z && (t >? 0)%Z then
              pi ← index choicesNotHidden (Z.of_nat i);
              let h1 := set_Selected false pi h in
              pt ← index choicesNotHidden t;
              Ok (Some pt, set_Selected true pt h1)
            else if (t >=? len)%Z then
              pi ← index choicesNotHidden (Z.of_nat i);
              let h1 := set_Selected false pi h in
              pt ← index choicesNotHidden (GoInt.sub len 1);
              Ok (Some pt, set_Selected true pt h1)
            else if (t <=? 0)%Z then
              pi ← index choicesNotHidden (Z.of_nat i);
              let h1 := set_Selected false pi h in
              pt ← index choicesNotHidden 0;
              Ok (Some pt, set_Selected true pt h1)
            else Ok (Some p, h)
          else scan h choicesNotHidden increment (S i) rest'
      end
  end.

(** [move] returns the pointer it selected ([None] is [nil]) and the heap. *)
Definition move (choices : list Choice) (increment : Z)
  : Res (option Ptr * list Choice) :=
  let '(h, choicesNotHidden, selectedChoiceExists) := collect 0 choices in
  match choicesNotHidden with
  | [] => Ok (None, h)
  | first :: _ =>
      if negb selectedChoiceExists then Ok (Some first, set_Selected true first h)
      else scan h choicesNotHidden increment 0 choicesNotHidden
  end.

Definition moveUp (choices : list Choice) (step : Z) := move choices (GoInt.neg step).
Definition moveDown (choices : list Choice) (step : Z) := move choices step.

(** ** Strings *)

(** [strings.Split(s, sep)] for a separator of one byte (the source splits
    the question at newlines only).  The result is never empty. *)
Fixpoint strings_Split (s : string) (sep : ascii) : list string :=
  match s with
  | EmptyString => [EmptyString]
  | String a s' =>
      if Ascii.eqb a sep then EmptyString :: strings_Split s' sep
      else match strings_Split s' sep with
           | [] => [String a EmptyString]
           | line :: lines => String a line :: lines
           end
  end.

Definition newline : ascii := ascii_of_nat 10.

(** [s[:len(s)-1]] for a non-empty [s]: the last byte is dropped. *)
Fixpoint drop_last_byte (s : string) : string :=
  match s with
  | EmptyString => EmptyString
  | String a EmptyString => EmptyString
  | String a s' => String a (drop_last_byte s')
  end.

Definition byte_of_Z (z : Z) : ascii := ascii_of_N (Z.to_N z).

(** [string(r)] for a rune [r]: its UTF-8 encoding, and U+FFFD for a value
    that is no Unicode scalar. *)
Definition string_of_rune (r : Z) : string :=
  let cont (z : Z) := byte_of_Z (Z.lor 128 (Z.land z 63)) in
  if ((r <? 0) || (1114111 <? r) || ((55296 <=? r) && (r <=? 57343)))%Z then
    String (byte_of_Z 239) (String (byte_of_Z 191) (String (byte_of_Z 189) EmptyString))
  else if (r <? 128)%Z then String (byte_of_Z r) EmptyString
  else if (r <? 2048)%Z then
    String (byte_of_Z (Z.lor 192 (Z.shiftr r 6))) (String (cont r) EmptyString)
  else if (r <? 65536)%Z then
    String (byte_of_Z (Z.lor 224 (Z.shiftr r 12)))
      (String (cont (Z.shiftr r 6)) (String (cont r) EmptyString))
  else
    String (byte_of_Z (Z.lor 240 (Z.shiftr r 18)))
      (String (cont (Z.shiftr r 12))
         (String (cont (Z.shiftr r 6)) (String (cont r) EmptyString))).

Fixpoint hasPrefix (s prefix : string) : bool :=
  match prefix, s with
  | EmptyString, _ => true
  | String a prefix', String b s' => Ascii.eqb a b && hasPrefix s' prefix'
  | String _ _, EmptyString => false
  end.

(** Modelled from the spec: the substring test of the filter.  The filter
    is applied by the six-argument [render] that [pick] calls, whose source
    is not available; the specification describes it as a "literal
    substring, respecting case as given - no normalization". *)
Fixpoint containsSubstring (value query : string) : bool :=
  hasPrefix value query ||
  match value with
  | EmptyString => false
  | String _ value' => containsSubstring value' query
  end.

(** Modelled from the spec: what that [render] does to the hidden flags,
    "for every choice, set hidden = !containsSubstring(value, query)". *)
Definition applyQuery (query : string) (choices : list Choice) : list Choice :=
  (fun c => with_hidden (negb (containsSubstring (Value c) query)) c) <$> choices.

(** ** The display surface *)

Inductive Key : Type :=
| KeyUp | KeyDown | KeyHome | KeyEnd | KeyPgUp | KeyPgDn
| KeyBackspace | KeyBackspace2
| KeyEnter | KeyRight
| KeyEscape | KeyCtrlC | KeyLeft
| KeyRune (r : Z)
| KeyOther.              (* any key the switch has no case for *)

Inductive Event : Type :=
| EventKey (k : Key)
| EventResize (height : Z) (* the terminal now has this many rows *)
| EventOther.

(** One call of [render]: the arguments it was given. *)
Record Frame : Type := mkFrame {
  frame_choices : list Choice;
  frame_selected : option Ptr;
  frame_query : string
}.

(** The screen: its height as [Size] reports it and the frames drawn so far. *)
Record Screen : Type := mkScreen {
  rows : Z;
  frames : list Frame
}.

(** ** pick *)

Inductive Error : Type := ErrNoChoiceSelected | ErrNoChoice.

(** The state the closure of [pick] captures. *)
Record Session : Type := mkSession {
  choices : list Choice;
  selectedChoice : option Ptr;
  searchQuery : string
}.

(** Modelled from the spec: the six-argument [render] that [pick] calls,
    whose source is not available.  It reapplies the filter to the hidden
    flags and draws one frame, recorded here with the arguments of the
    call. *)
Definition render (scr : Screen) (s : Session) : Screen * Session :=
  let cs := applyQuery (searchQuery s) (choices s) in
  ({| rows := rows scr;
      frames := frames scr ++ [mkFrame cs (selectedChoice s) (searchQuery s)] |},
   {| choices := cs; selectedChoice := selectedChoice s; searchQuery := searchQuery s |}).

Definition computePageSize (scr : Screen) (question : string) : Z :=
  let height := rows scr in
  let questionLines := Z.of_nat (length (strings_Split question newline)) in
  if (height >? questionLines)%Z
  then GoInt.sub height (GoInt.add questionLines 1)
  else height.

(** [selectedChoice = move...(choices, step)] *)
Definition navigate (mv : list Choice -> Z -> Res (option Ptr * list Choice))
    (step : Z) (s : Session) : Res Session :=
  '(sel, cs) ← mv (choices s) step;
  Ok {| choices := cs; selectedChoice := sel; searchQuery := searchQuery s |}.

Definition len_choices (s : Session) : Z := Z.of_nat (length (choices s)).

Inductive Status : Type := Running | Quit.

(** One pass through the [switch] of the loop, after [PollEvent] returned [ev]. *)
Definition handle (question : string) (ev : Event) (scr : Screen) (s : Session)
  : Res (Screen * Session * Status) :=
  match ev with
  | EventKey KeyUp => s' ← navigate moveUp 1 s; Ok (scr, s', Running)
  | EventKey KeyDown => s' ← navigate moveDown 1 s; Ok (scr, s', Running)
  | EventKey KeyHome => s' ← navigate moveUp (len_choices s) s; Ok (scr, s', Running)
  | EventKey KeyEnd => s' ← navigate moveDown (len_choices s) s; Ok (scr, s', Running)
  | EventKey KeyPgUp =>
      s' ← navigate moveUp (computePageSize scr question) s; Ok (scr, s', Running)
  | EventKey KeyPgDn =>
      s' ← navigate moveDown (computePageSize scr question) s; Ok (scr, s', Running)
  | EventKey KeyBackspace | EventKey KeyBackspace2 =>
      if (0 <? String.length (searchQuery s))%nat then
        let s1 := {| choices := choices s; selectedChoice := selectedChoice s;
                     searchQuery := drop_last_byte (searchQuery s) |} in
        let '(scr2, s2) := render scr s1 in
        s' ← navigate moveUp (len_choices s2) s2; Ok (scr2, s', Running)
      else Ok (scr, s, Running)
  | EventKey KeyEnter | EventKey KeyRight => Ok (scr, s, Quit)
  | EventKey KeyEscape | EventKey KeyCtrlC | EventKey KeyLeft =>
      Ok (scr, {| choices := choices s; selectedChoice := None;
                  searchQuery := searchQuery s |}, Quit)
  | EventKey (KeyRune r) =>
      let s1 := {| choices := choices s; selectedChoice := selectedChoice s;
                   searchQuery := searchQuery s +:+ string_of_rune r |} in
      let '(scr2, s2) := render scr s1 in
      s' ← navigate moveUp (len_choices s2) s2; Ok (scr2, s', Running)
  | EventKey KeyOther => Ok (scr, s, Running)
  | EventResize height =>   (* screen.Sync(); Size reports the new height *)
      Ok ({| rows := height; frames := frames scr |}, s, Running)
  | EventOther => Ok (scr, s, Running)
  end.

(** How the goroutine of [pick] ends on a finite sequence of events. *)
Inductive Loop : Type :=
| Closed (scr : Screen) (s : Session) (unread : list Event)  (* close(quit) *)
| Waiting (scr : Screen) (s : Session).                      (* PollEvent blocks *)

(** The [for] loop: render, poll, switch. *)
Fixpoint loop (question : string) (evs : list Event) (scr : Screen) (s : Session)
  : Res Loop :=
  let '(scr1, s1) := render scr s in
  match evs with
  | [] => Ok (Waiting scr1 s1)
  | ev :: evs' =>
      '(scr2, s2, status) ← handle question ev scr1 s1;
      match status with
      | Quit => Ok (Closed scr2 s2 evs')
      | Running => loop question evs' scr2 s2
      end
  end.

(** The construction loop of [pick]. *)
Fixpoint newChoices (i : nat) (choicesToPickFrom : list string) : list Choice :=
  match choicesToPickFrom with
  | [] => []
  | choice :: rest =>
      {| Id := Z.of_nat i; Value := choice; Selected := (i =? 0)%nat; hidden := false |}
      :: newChoices (S i) rest
  end.

(** What the caller of [pick] observes: the returned triple, or that
    [<-quit] never returns; and the screen. *)
Inductive Picked : Type :=
| Returned (value : string) (id : Z) (err : option Error) (scr : Screen)
| Pending (scr : Screen).

Definition pick (question : string) (choicesToPickFrom : list string)
    (scr : Screen) (evs : list Event) : Res Picked :=
  if (length choicesToPickFrom =? 0)%nat then
    Ok (Returned EmptyString 0 (Some ErrNoChoice) scr)
  else
    let s0 := {| choices := newChoices 0 choicesToPickFrom;
                 selectedChoice := Some 0%nat;
                 searchQuery := EmptyString |} in
    l ← loop question evs scr s0;
    match l with
    | Waiting scr' _ => Ok (Pending scr')
    | Closed scr' s _ =>
        match selectedChoice s with
        | None => Ok (Returned EmptyString 0 (Some ErrNoChoiceSelected) scr')
        | Some p =>
            match choices s !! p with
            | Some c => Ok (Returned (Value c) (Id c) None scr')
            | None => Panic NilDereference
            end
        end
    end.

(** ** The viewport: [render] of the revision without search *)

Module Legacy.
Local Open Scope Z_scope.

Inductive Style : Type :=
| Plain          (* config.TextColor *)
| Highlighted.   (* config.SelectedTextColor *)

(** One call of [printText]: column, row, text and foreground. *)
Record Print : Type := mkPrint {
  px : Z;
  py : Z;
  ptext : string;
  pstyle : Style
}.

(** The loop over [questionLines]: the calls and the final [lineNumber]. *)
Fixpoint render_question (lineNumber : Z) (questionLines : list string)
  : list Print * Z :=
  match questionLines with
  | [] => ([], lineNumber)
  | line :: rest =>
      let '(out, n) := render_question (GoInt.add lineNumber 1) rest in
      (mkPrint 1 lineNumber line Plain :: out, n)
  end.

(** The loop over [options]; [bound] is [(min+1)-maximumThatCanBeDisplayed]. *)
Fixpoint render_options (bound : Z) (lineNumber : Z) (options : list Choice)
  : list Print :=
  match options with
  | [] => []
  | option :: rest =>
      if (Id option <=? bound) && negb (Id option >? bound) then
        render_options bound lineNumber rest
      else
        (if Selected option
         then mkPrint 1 lineNumber ("> " +:+ Value option) Highlighted
         else mkPrint 3 lineNumber (Value option) Plain)
        :: render_options bound (GoInt.add lineNumber 1) rest
  end.

(** [render]: every [printText] call of one frame, in order. *)
Definition render (height : Z) (question : string) (options : list Choice)
    (selectedChoice : option Ptr) : Res (list Print) :=
  let maximumThatCanBeDisplayed := height in
  let questionLines := strings_Split question newline in
  let '(header, lineNumber) := render_question 0 questionLines in
  match selectedChoice ≫= (options !!.) with
  | None => Panic NilDereference
  | Some selected =>
      let min := GoInt.add (Id selected) (Z.of_nat (length questionLines)) in
      let max := maximumThatCanBeDisplayed in
      let '(min, max) :=
        if Id selected >? max then (GoInt.add min 1, GoInt.add max 1)
        else (min, max) in
      let bound := GoInt.sub (GoInt.add min 1) maximumThatCanBeDisplayed in
      Ok (header ++ render_options bound lineNumber options)
  end.
(** The loop of the two-argument [move]: [rest] is what is left of
    [choices] from index [i] on.  [choices[z]] is the pointer at position
    [z], bounds checked. *)
Fixpoint move_from (choices : list Choice) (increment : Z) (i : nat)
    (rest : list Choice) : Res (Ptr * list Choice) :=
  match rest with
  | [] => Panic SomethingWentWrong
  | choice :: rest' =>
      if Selected choice then
        let t := GoInt.add (Z.of_nat i) increment in
        if (t <? Z.of_nat (length choices)) && (t >=? 0) then
          pi ← index (seq 0 (length choices)) (Z.of_nat i);
          let h1 := set_Selected false pi choices in
          pt ← index (seq 0 (length choices)) t;
          Ok (pt, set_Selected true pt h1)
        else Ok (i, choices)
      else move_from choices increment (S i) rest'
  end.

Definition move (choices : list Choice) (increment : Z) : Res (Ptr * list Choice) :=
  move_from choices increment 0 choices.

Definition moveUp (choices : list Choice) := move choices (-1).
Definition moveDown (choices : list Choice) := move choices 1.

(** What the caller of the two-result [pick] observes: the value and the
    message of the error, or that [<-quit] never returns. *)
Inductive Outcome : Type :=
| Returned (value : string) (err : option string)
| Pending.

(** One pass through the [switch] of the loop of [pick]. *)
Definition handle (ev : Event) (choices : list Choice)
    (selectedChoice : option Ptr) : Res (list Choice * option Ptr * Status) :=
  let up := '(p, h) ← moveUp choices; Ok (h, Some p, Running) in
  let down := '(p, h) ← moveDown choices; Ok (h, Some p, Running) in
  match ev with
  | EventKey KeyUp => up
  | EventKey KeyDown => down
  | EventKey KeyEnter | EventKey KeyRight => Ok (choices, selectedChoice, Quit)
  | EventKey KeyEscape => Ok (choices, None, Quit)
  | EventKey (KeyRune r) =>
      if (r =? 107) || (r =? 119) then up                        (* 'k', 'w' *)
      else if (r =? 106) || (r =? 115) then down                 (* 'j', 's' *)
      else if (r =? 32) || (r =? 108) || (r =? 100)              (* ' ', 'l', 'd' *)
      then Ok (choices, selectedChoice, Quit)
      else if (r =? 113) then Ok (choices, None, Quit)           (* 'q' *)
      else Ok (choices, selectedChoice, Running)
  | _ => Ok (choices, selectedChoice, Running)
  end.

(** The [for] loop of [pick]: [Some] of the final [selectedChoice] once
    [quit] is closed, [None] while [PollEvent] blocks.  The [render] the
    loop spawns with [go] only reads the choices and writes to the screen;
    its drawing is left out. *)
Fixpoint loop (evs : list Event) (choices : list Choice)
    (selectedChoice : option Ptr) : Res (option (list Choice * option Ptr)) :=
  match evs with
  | [] => Ok None
  | ev :: evs' =>
      '(h, sel, status) ← handle ev choices selectedChoice;
      match status with
      | Quit => Ok (Some (h, sel))
      | Running => loop evs' h sel
      end
  end.

Definition pick (choicesToPickFrom : list string) (evs : list Event)
  : Res Outcome :=
  if (length choicesToPickFrom =? 0)%nat then
    Ok (Returned EmptyString (Some "no choices to choose from"))
  else
    l ← loop evs (newChoices 0 choicesToPickFrom) (Some 0%nat);
    match l with
    | None => Ok Pending
    | Some (h, None) => Ok (Returned EmptyString (Some "aborted"))
    | Some (h, Some p) =>
        match h !! p with
        | Some c => Ok (Returned (Value c) None)
        | None => Panic NilDereference
        end
    end.

End Legacy.

(** ** Vocabulary of the specification *)

(** The visible choices, as pointers in id order. *)
Fixpoint visible_from (p : Ptr) (cs : list Choice) : list Ptr :=
  match cs with
  | [] => []
  | c :: rest =>
      if hidden c then visible_from (S p) rest else p :: visible_from (S p) rest
  end.

Definition visible (cs : list Choice) : list Ptr := visible_from 0 cs.

(** Whether the cell behind [p] has its selected flag set. *)
Definition is_selected (h : list Choice) (p : Ptr) : bool :=
  match h !! p with
  | Some c => Selected c
  | None => false
  end.

(** The index and the pointer of the first selected visible choice. *)
Definition current (cs : list Choice) : option (nat * Ptr) :=
  list_find (fun q => is_selected cs q = true) (visible cs).

(** What the first loop of [move] leaves of a cell. *)
Definition unselect_hidden (c : Choice) : Choice :=
  if hidden c then with_Selected false c else c.

(** "clamp target into [0, length-1]" *)
Definition clamp (len t : Z) : Z := Z.max 0 (Z.min (len - 1) t).

(** The index [move] lands on from index [i] of [len] visible choices. *)
Definition landing (len i : nat) (increment : Z) : nat :=
  Z.to_nat (clamp (Z.of_nat len) (GoInt.add (Z.of_nat i) increment)).

(** A slice has a length an [int] can hold. *)
Definition fits {A : Type} (l : list A) : Prop :=
  (Z.of_nat (length l) <= GoInt.max_int)%Z.

(** The cells with the selected flags erased: ids, values and hidden flags. *)
Definition erase (cs : list Choice) : list Choice := with_Selected false <$> cs.

(** The selection is at [o]: the cell behind it is visible and is the only
    selected cell of the heap; with [None], no cell is selected and none is
    visible. *)
Definition selection_at (cs : list Choice) (o : option Ptr) : Prop :=
  match o with
  | Some p =>
      (exists c, cs !! p = Some c /\ hidden c = false /\ Selected c = true) /\
      (forall q c, cs !! q = Some c -> Selected c = true -> q = p)
  | None =>
      visible cs = [] /\ (forall q c, cs !! q = Some c -> Selected c = false)
  end.

(** At most one visible choice is selected. *)
Definition at_most_one (cs : list Choice) : Prop :=
  forall q1 q2, q1 ∈ visible cs -> q2 ∈ visible cs ->
    is_selected cs q1 = true -> is_selected cs q2 = true -> q1 = q2.

(** At most one cell of the heap is selected. *)
Definition unique_selected (cs : list Choice) : Prop :=
  forall q1 q2 c1 c2, cs !! q1 = Some c1 -> cs !! q2 = Some c2 ->
    Selected c1 = true -> Selected c2 = true -> q1 = q2.

(** The invariant of the data model, by counting: at most one visible
    choice is selected, exactly one when a choice is visible, and no choice
    at all when none is visible. *)
Definition visible_choices (cs : list Choice) : list Choice :=
  filter (fun c => hidden c = false) cs.

Definition count_selected (l : list Choice) : nat :=
  length (filter (fun c => Selected c = true) l).

Definition selection_invariant (cs : list Choice) : Prop :=
  (count_selected (visible_choices cs) <= 1)%nat /\
  (visible_choices cs <> [] -> count_selected (visible_choices cs) = 1%nat) /\
  (visible_choices cs = [] -> count_selected cs = 0%nat).

(** The session [pick] starts the loop with. *)
Definition session0 (choicesToPickFrom : list string) : Session :=
  {| choices := newChoices 0 choicesToPickFrom;
     selectedChoice := Some 0%nat;
     searchQuery := EmptyString |}.

Definition final_session (l : Loop) : Session :=
  match l with
  | Closed _ s _ => s
  | Waiting _ s => s
  end.

(** What holds of a session between two events: the selection is at
    [selectedChoice], and the cells are those built from the input, hidden
    as the query says. *)
Record consistent (choicesToPickFrom : list string) (s : Session) : Prop := {
  consistent_selection : selection_at (choices s) (selectedChoice s);
  consistent_cells :
    erase (choices s) =
    erase (applyQuery (searchQuery s) (newChoices 0 choicesToPickFrom))
}.

(** What [handle] leaves: a consistent session while the loop runs; on
    quitting, the cells as they were. *)
Definition handled (vals : list string) (s : Session)
    (r : Screen * Session * Status) : Prop :=
  match r with
  | (_, s', Running) => consistent vals s'
  | (_, s', Quit) =>
      choices s' = choices s /\ searchQuery s' = searchQuery s /\
      (selectedChoice s' = selectedChoice s \/ selectedChoice s' = None)
  end.

(** What the loop leaves: a consistent session while it waits; once
    closed, cells with the selection in place and [selectedChoice] either
    on it or nil. *)
Definition settled (vals : list string) (l : Loop) : Prop :=
  match l with
  | Waiting _ s => consistent vals s
  | Closed _ s _ =>
      exists o, consistent vals
                  {| choices := choices s; selectedChoice := o;
                     searchQuery := searchQuery s |} /\
                (selectedChoice s = o \/ selectedChoice s = None)
  end.

(** A heap to try the functions on: three visible choices, the second selected. *)
Definition abc : list Choice :=
  [mkChoice 0 "a" false false; mkChoice 1 "b" true false; mkChoice 2 "c" false false].

(** The keys of the two [case] lists that close the loop. *)
Definition confirm_key (k : Key) : bool :=
  match k with
  | KeyEnter | KeyRight => true
  | _ => false
  end.

(** Key [k] aborts: pressed in any session that is waiting for an event, it
    makes [pick] return the no-selection error and no value. *)
Definition aborts (k : Key) : Prop :=
  forall question choicesToPickFrom scr pre rest scr1 s1,
    choicesToPickFrom <> [] ->
    loop question pre scr (session0 choicesToPickFrom) = Ok (Waiting scr1 s1) ->
    loop question (pre ++ EventKey k :: rest) scr (session0 choicesToPickFrom) =
    Ok (Closed scr1 {| choices := choices s1; selectedChoice := None;
                       searchQuery := searchQuery s1 |} rest) /\
    pick question choicesToPickFrom scr (pre ++ EventKey k :: rest) =
    Ok (Returned EmptyString 0 (Some ErrNoChoiceSelected) scr1).

(** The rune of the letter q. *)
Definition rune_q : Z := 113.

(** The query after a query edit: a printable character is appended, a
    backspace drops the last byte of a non-empty query.  No other event,
    and no backspace on the empty query, is a query edit. *)
Definition edited (query : string) (ev : Event) : option string :=
  match ev with
  | EventKey (KeyRune r) => Some (query +:+ string_of_rune r)
  | EventKey KeyBackspace | EventKey KeyBackspace2 =>
      if (0 <? String.length query)%nat then Some (drop_last_byte query) else None
  | _ => None
  end.

(** The [printText] call of [render] for one choice on row [row]. *)
Definition line_of (row : Z) (c : Choice) : Legacy.Print :=
  if Selected c
  then Legacy.mkPrint 1 row ("> " +:+ Value c) Legacy.Highlighted
  else Legacy.mkPrint 3 row (Value c) Legacy.Plain.

(** The calls for the lines of the question, from row 0 on. *)
Definition header_of (questionLines : list string) : list Legacy.Print :=
  imap (fun j line => Legacy.mkPrint 1 (Z.of_nat j) line Legacy.Plain) questionLines.

(** The ids are the positions, as [pick] assigns them. *)
Definition ids_are_positions (cs : list Choice) : Prop :=
  forall k c, cs !! k = Some c -> Id c = Z.of_nat k.

(** The [min += 1] of [render], taken when the selected id exceeds the height. *)
Definition bump (height : Z) (s : nat) : Z :=
  if (Z.of_nat s >? height)%Z then 1%Z else 0%Z.

(** The position of the first choice [render] does not skip. *)
Definition window_start (height : Z) (headerLines s : nat) : nat :=
  Z.to_nat (Z.of_nat s + Z.of_nat headerLines + bump height s + 2 - height).

(** The window as the specification describes it, for the choice selected
    at position [s]: it is drawn on a row of the terminal below the header;
    while [s] is within the first [capacity = height - headerLines]
    positions the first choice drawn is the first choice; beyond that the
    selected choice is on the last row of the terminal. *)
Definition window_as_specified (height : Z) (question : string)
    (cs : list Choice) (s : nat) : Prop :=
  let headerLines := length (strings_Split question newline) in
  let capacity := (height - Z.of_nat headerLines)%Z in
  exists out c,
    cs !! s = Some c /\
    Legacy.render height question cs (Some s) = Ok out /\
    (exists row, (Z.of_nat headerLines <= row < height)%Z /\ line_of row c ∈ out) /\
    ((Z.of_nat s < capacity)%Z ->
     exists c0, cs !! 0%nat = Some c0 /\
                out !! headerLines = Some (line_of (Z.of_nat headerLines) c0)) /\
    ((capacity <= Z.of_nat s)%Z -> line_of (height - 1) c ∈ out).

(** Six choices as [pick] builds them, with the selection moved to [s]. *)
Definition six (s : nat) : list Choice :=
  (fun c => with_Selected (Id c =? Z.of_nat s)%Z c)
    <$> newChoices 0 ["a"; "b"; "c"; "d"; "e"; "f"].

(** Clamped movement as the specification describes it, from the first
    selected visible choice [p] at index [i]: [moveUp] lands on index
    [clamp L (i - step)] and [moveDown] on [clamp L (i + step)] of the [L]
    visible choices; the selected flag goes from [p] to the target, whose
    pointer is returned; a target equal to [i] returns [p], still selected. *)
Definition moves_as_specified (cs : list Choice) (i : nat) (p : Ptr)
    (step : Z) : Prop :=
  let L := Z.of_nat (length (visible cs)) in
  let h := unselect_hidden <$> cs in
  (exists pt,
     visible cs !! Z.to_nat (clamp L (Z.of_nat i - step)) = Some pt /\
     moveUp cs step =
     Ok (Some pt, set_Selected true pt (set_Selected false p h)) /\
     (clamp L (Z.of_nat i - step) = Z.of_nat i ->
      moveUp cs step = Ok (Some p, h))) /\
  (exists pt,
     visible cs !! Z.to_nat (clamp L (Z.of_nat i + step)) = Some pt /\
     moveDown cs step =
     Ok (Some pt, set_Selected true pt (set_Selected false p h)) /\
     (clamp L (Z.of_nat i + step) = Z.of_nat i ->
      moveDown cs step = Ok (Some p, h))).

(** ** Vocabulary of the further properties *)

(** The cells [pick] builds from the input, with the selected flag on the
    cell at position [m] and on no other. *)
Definition cells_at (vals : list string) (m : nat) : list Choice :=
  (fun c => with_Selected (Id c =? Z.of_nat m)%Z c) <$> newChoices 0 vals.

(** The keys that close the loop of [pick]. *)
Definition closing (ev : Event) : bool :=
  match ev with
  | EventKey KeyEnter | EventKey KeyRight
  | EventKey KeyEscape | EventKey KeyCtrlC | EventKey KeyLeft => true
  | _ => false
  end.

Definition is_rune (ev : Event) : bool :=
  match ev with
  | EventKey (KeyRune _) => true
  | _ => false
  end.

(** A cursor over [n] positions, the reading of a session of [pick] in
    which nothing is typed: where the events leave the cursor, and whether
    they end the session.  [Some (Some pos)] is a confirmation at [pos],
    [Some None] an abort, [None] a session still waiting. *)
Fixpoint cursor (question : string) (n : nat) (height : Z) (pos : nat)
    (evs : list Event) : option (option nat) :=
  match evs with
  | [] => None
  | ev :: evs' =>
      let page := computePageSize (mkScreen height []) question in
      match ev with
      | EventKey KeyUp => cursor question n height (landing n pos (GoInt.neg 1)) evs'
      | EventKey KeyDown => cursor question n height (landing n pos 1) evs'
      | EventKey KeyHome =>
          cursor question n height (landing n pos (GoInt.neg (Z.of_nat n))) evs'
      | EventKey KeyEnd => cursor question n height (landing n pos (Z.of_nat n)) evs'
      | EventKey KeyPgUp => cursor question n height (landing n pos (GoInt.neg page)) evs'
      | EventKey KeyPgDn => cursor question n height (landing n pos page) evs'
      | EventKey KeyEnter | EventKey KeyRight => Some (Some pos)
      | EventKey KeyEscape | EventKey KeyCtrlC | EventKey KeyLeft => Some None
      | EventResize height' => cursor question n height' pos evs'
      | _ => cursor question n height pos evs'
      end
  end.

(** The same for the picker without search: one step at a time, no move
    past either end, and letters for keys. *)
Definition legacy_up (pos : nat) : nat := pred pos.
Definition legacy_down (n pos : nat) : nat := if (S pos <? n)%nat then S pos else pos.

Fixpoint legacy_cursor (n : nat) (pos : nat) (evs : list Event)
  : option (option nat) :=
  match evs with
  | [] => None
  | ev :: evs' =>
      match ev with
      | EventKey KeyUp => legacy_cursor n (legacy_up pos) evs'
      | EventKey KeyDown => legacy_cursor n (legacy_down n pos) evs'
      | EventKey KeyEnter | EventKey KeyRight => Some (Some pos)
      | EventKey KeyEscape => Some None
      | EventKey (KeyRune r) =>
          if ((r =? 107) || (r =? 119))%Z then legacy_cursor n (legacy_up pos) evs'
          else if ((r =? 106) || (r =? 115))%Z then legacy_cursor n (legacy_down n pos) evs'
          else if ((r =? 32) || (r =? 108) || (r =? 100))%Z then Some (Some pos)
          else if (r =? 113)%Z then Some None
          else legacy_cursor n pos evs'
      | _ => legacy_cursor n pos evs'
      end
  end.

(** The session of [pick] with the cursor at [pos] and nothing typed. *)
Definition browsing (vals : list string) (pos : nat) : Session :=
  {| choices := cells_at vals pos; selectedChoice := Some pos;
     searchQuery := EmptyString |}.

(** What [pick] returns for a reading of the cursor. *)
Definition picked_as (vals : list string) (reading : option (option nat))
    (r : Res Picked) : Prop :=
  match reading with
  | None => exists scr', r = Ok (Pending scr')
  | Some None =>
      exists scr', r = Ok (Returned EmptyString 0 (Some ErrNoChoiceSelected) scr')
  | Some (Some pos) =>
      exists scr' v, vals !! pos = Some v /\
                     r = Ok (Returned v (Z.of_nat pos) None scr')
  end.

(** The events both pickers have a case for, with the ones both ignore. *)
Definition shared (ev : Event) : bool :=
  match ev with
  | EventKey KeyUp | EventKey KeyDown
  | EventKey KeyEnter | EventKey KeyRight | EventKey KeyEscape
  | EventKey KeyOther | EventResize _ | EventOther => true
  | _ => false
  end.

(** * Properties *)

(** ** Machine integers *)

Lemma wrap_in_range z : GoInt.in_range (GoInt.wrap z).
Proof.
  unfold GoInt.in_range, GoInt.wrap, GoInt.min_int, GoInt.max_int.
  pose proof (Z.mod_pos_bound (z + 2 ^ 63) (2 ^ 64) ltac:(lia)). lia.
Qed.

Lemma wrap_id z : GoInt.in_range z -> GoInt.wrap z = z.
Proof.
  unfold GoInt.in_range, GoInt.wrap, GoInt.min_int, GoInt.max_int. intros Hz.
  rewrite Z.mod_small by lia. lia.
Qed.

Lemma add_exact a b : GoInt.in_range (a + b) -> GoInt.add a b = (a + b)%Z.
Proof. apply wrap_id. Qed.

Lemma sub_exact a b : GoInt.in_range (a - b) -> GoInt.sub a b = (a - b)%Z.
Proof. apply wrap_id. Qed.

Lemma neg_exact a : GoInt.in_range (- a) -> GoInt.neg a = (- a)%Z.
Proof. apply wrap_id. Qed.

(** ** The heap *)

Lemma with_Selected_same c : with_Selected (Selected c) c = c.
Proof. by destruct c. Qed.

Lemma unselect_hidden_code c :
  hidden c = true ->
  (if Selected c then with_Selected false c else c) = unselect_hidden c.
Proof.
  intros Hh. unfold unselect_hidden. rewrite Hh.
  destruct (Selected c) eqn:E; [done |]. by rewrite <- E, with_Selected_same.
Qed.

Lemma lookup_set_Selected b p h q :
  set_Selected b p h !! q =
  if decide (p = q) then with_Selected b <$> h !! q else h !! q.
Proof.
  unfold set_Selected. rewrite list_lookup_alter. by repeat case_decide; subst.
Qed.

Lemma length_set_Selected b p h : length (set_Selected b p h) = length h.
Proof. apply length_alter. Qed.

Lemma erase_set_Selected b p h : erase (set_Selected b p h) = erase h.
Proof.
  unfold erase. apply list_eq. intros q.
  rewrite !list_lookup_fmap, lookup_set_Selected.
  destruct (decide (p = q)); [| done]. by destruct (h !! q) as [[]|].
Qed.

Lemma erase_unselect_hidden cs : erase (unselect_hidden <$> cs) = erase cs.
Proof.
  unfold erase. rewrite <- list_fmap_compose. apply list_fmap_ext.
  intros i c _. unfold unselect_hidden. simpl. by destruct (hidden c).
Qed.

Lemma erase_lookup cs cs' q c :
  erase cs = erase cs' -> cs !! q = Some c ->
  exists c', cs' !! q = Some c' /\ Id c' = Id c /\ Value c' = Value c
             /\ hidden c' = hidden c.
Proof.
  intros He Hq.
  assert (erase cs' !! q = Some (with_Selected false c)) as H.
  { rewrite <- He. unfold erase. by rewrite list_lookup_fmap, Hq. }
  unfold erase in H. rewrite list_lookup_fmap in H.
  destruct (cs' !! q) as [c'|]; [| done].
  exists c'. split; [done |]. by simplify_eq/=; destruct c, c'; simplify_eq/=.
Qed.

Lemma erase_length cs cs' : erase cs = erase cs' -> length cs = length cs'.
Proof. intros He. apply (f_equal length) in He. unfold erase in He.
  by rewrite !length_fmap in He. Qed.

(** ** The visible choices *)

Lemma elem_of_visible_from p cs q :
  q ∈ visible_from p cs <->
  exists c, (p <= q)%nat /\ cs !! (q - p)%nat = Some c /\ hidden c = false.
Proof.
  revert p. induction cs as [| c rest IH]; intros p; simpl.
  - split; [by intros ?%elem_of_nil | by intros (? & ? & ? & ?)].
  - destruct (hidden c) eqn:Hc.
    + rewrite IH. split.
      * intros (c' & Hle & Hl & Hh). exists c'. split; [lia |]. split; [| done].
        by replace (q - p)%nat with (S (q - S p)) by lia.
      * intros (c' & Hle & Hl & Hh).
        destruct (q - p)%nat as [| k] eqn:Ek; simpl in Hl; [congruence |].
        exists c'. split; [lia |]. split; [| done].
        by replace (q - S p)%nat with k by lia.
    + rewrite elem_of_cons, IH. split.
      * intros [-> | (c' & Hle & Hl & Hh)].
        -- exists c. split; [lia |]. by rewrite Nat.sub_diag.
        -- exists c'. split; [lia |]. split; [| done].
           by replace (q - p)%nat with (S (q - S p)) by lia.
      * intros (c' & Hle & Hl & Hh).
        destruct (q - p)%nat as [| k] eqn:Ek; simpl in Hl.
        -- left. lia.
        -- right. exists c'. split; [lia |]. split; [| done].
           by replace (q - S p)%nat with k by lia.
Qed.

(** A pointer is in [visible cs] exactly when its cell is not hidden. *)
Lemma elem_of_visible cs q :
  q ∈ visible cs <-> exists c, cs !! q = Some c /\ hidden c = false.
Proof.
  unfold visible. rewrite elem_of_visible_from. split.
  - intros (c & _ & Hl & Hh). exists c. by rewrite Nat.sub_0_r in Hl.
  - intros (c & Hl & Hh). exists c. split; [lia |]. by rewrite Nat.sub_0_r.
Qed.

Lemma visible_from_lb p cs q : q ∈ visible_from p cs -> (p <= q)%nat.
Proof. rewrite elem_of_visible_from. by intros (? & ? & _). Qed.

(** [visible cs] is in id order, hence without repetition. *)
Lemma visible_from_sorted p cs : StronglySorted lt (visible_from p cs).
Proof.
  revert p. induction cs as [| c rest IH]; intros p; simpl; [constructor |].
  destruct (hidden c); [apply IH |].
  constructor; [apply IH |]. apply Forall_forall. intros q Hq.
  apply visible_from_lb in Hq. lia.
Qed.

Lemma visible_NoDup cs : NoDup (visible cs).
Proof.
  unfold visible. generalize (visible_from_sorted 0 cs).
  induction 1 as [| q l _ IH Hall]; constructor; [| done].
  intros Hin. rewrite Forall_forall in Hall. specialize (Hall _ Hin). lia.
Qed.

Lemma visible_from_erase p cs cs' :
  erase cs = erase cs' -> visible_from p cs = visible_from p cs'.
Proof.
  revert p cs'. induction cs as [| c rest IH]; intros p [| c' rest'] He;
    simpl in *; try done.
  unfold erase in He. simpl in He. injection He as Hc Hrest.
  assert (hidden c = hidden c') as -> by (by destruct c, c'; simplify_eq/=).
  by rewrite (IH (S p) rest').
Qed.

Lemma visible_erase cs cs' : erase cs = erase cs' -> visible cs = visible cs'.
Proof. apply visible_from_erase. Qed.

Lemma visible_lookup cs i q :
  visible cs !! i = Some q -> exists c, cs !! q = Some c /\ hidden c = false.
Proof. intros H. apply elem_of_visible, list_elem_of_lookup. eauto. Qed.

Lemma length_visible_from p cs : (length (visible_from p cs) <= length cs)%nat.
Proof.
  revert p. induction cs as [| c rest IH]; intros p; simpl; [lia |].
  destruct (hidden c); simpl; specialize (IH (S p)); lia.
Qed.

Lemma fits_visible cs : fits cs -> fits (visible cs).
Proof.
  unfold fits, visible. pose proof (length_visible_from 0 cs). lia.
Qed.

(** ** The first loop of move *)

Lemma collect_spec p cs :
  collect p cs =
  (unselect_hidden <$> cs, visible_from p cs,
   existsb (fun c => negb (hidden c) && Selected c) cs).
Proof.
  revert p. induction cs as [| c rest IH]; intros p; simpl; [done |].
  rewrite IH. destruct (hidden c) eqn:Hc; simpl.
  - by rewrite unselect_hidden_code.
  - unfold unselect_hidden. rewrite Hc. by destruct (Selected c).
Qed.

Lemma lookup_unselect_hidden (cs : list Choice) q c :
  cs !! q = Some c -> hidden c = false -> (unselect_hidden <$> cs) !! q = Some c.
Proof.
  intros Hq Hc. rewrite list_lookup_fmap, Hq. simpl.
  unfold unselect_hidden. by rewrite Hc.
Qed.

Lemma is_selected_unselect_hidden cs q :
  q ∈ visible cs -> is_selected (unselect_hidden <$> cs) q = is_selected cs q.
Proof.
  intros (c & Hq & Hc)%elem_of_visible. unfold is_selected.
  by rewrite (lookup_unselect_hidden _ _ _ Hq Hc), Hq.
Qed.

Lemma unselect_hidden_selected (cs : list Choice) q c :
  (unselect_hidden <$> cs) !! q = Some c -> Selected c = true ->
  cs !! q = Some c /\ hidden c = false.
Proof.
  rewrite list_lookup_fmap. intros Hq Hs.
  destruct (cs !! q) as [c0|] eqn:E; [| done]. simpl in Hq.
  injection Hq as <-. unfold unselect_hidden in *.
  destruct (hidden c0) eqn:Hh; [done |]. done.
Qed.

Lemma selectedChoiceExists_true cs :
  existsb (fun c => negb (hidden c) && Selected c) cs = true <->
  exists q, q ∈ visible cs /\ is_selected cs q = true.
Proof.
  rewrite existsb_exists. split.
  - intros (c & Hin & Hc). apply list_elem_of_In, list_elem_of_lookup in Hin.
    destruct Hin as [q Hq]. apply andb_true_iff in Hc as [Hh Hs].
    apply negb_true_iff in Hh. exists q. split.
    + apply elem_of_visible. eauto.
    + unfold is_selected. by rewrite Hq.
  - intros (q & (c & Hq & Hh)%elem_of_visible & Hs).
    unfold is_selected in Hs. rewrite Hq in Hs. exists c. split.
    + apply list_elem_of_In, list_elem_of_lookup. eauto.
    + by rewrite Hh, Hs.
Qed.

(** ** The second loop of move *)

Lemma index_ok (s : list Ptr) z p :
  (0 <= z)%Z -> s !! Z.to_nat z = Some p -> index s z = Ok p.
Proof.
  intros Hz Hl. unfold index.
  destruct (z <? 0)%Z eqn:E; [lia |]. by rewrite Hl.
Qed.

(** The branches of [move] compute the clamped target. *)
Lemma clamp_branches len t :
  (1 <= len)%Z ->
  clamp len t =
  if ((t <? len) && (t >? 0))%Z then t
  else if (t >=? len)%Z then (len - 1)%Z
  else 0%Z.
Proof.
  intros Hlen. unfold clamp.
  destruct (t <? len)%Z eqn:E1, (t >? 0)%Z eqn:E2, (t >=? len)%Z eqn:E3;
    simpl; lia.
Qed.

Lemma clamp_bounds len t : (1 <= len)%Z -> (0 <= clamp len t < len)%Z.
Proof. unfold clamp. lia. Qed.

Lemma landing_lt len i increment :
  (0 < len)%nat -> (landing len i increment < len)%nat.
Proof.
  intros Hlen. unfold landing.
  pose proof (clamp_bounds (Z.of_nat len)
                (GoInt.add (Z.of_nat i) increment) ltac:(lia)). lia.
Qed.

Lemma scan_found h nh increment p suf :
  forall pre k,
    Forall (fun q => exists c, h !! q = Some c /\ Selected c = false) pre ->
    is_selected h p = true ->
    nh !! (k + length pre)%nat = Some p ->
    fits nh ->
    exists pt,
      nh !! landing (length nh) (k + length pre) increment = Some pt /\
      scan h nh increment k (pre ++ p :: suf) =
      Ok (Some pt, set_Selected true pt (set_Selected false p h)).
Proof.
  induction pre as [| q pre IH]; intros k Hpre Hp Hk Hfits.
  - simpl in *. rewrite Nat.add_0_r in *.
    unfold is_selected in Hp. destruct (h !! p) as [c|] eqn:Ec; [| done].
    rewrite Hp.
    assert (0 < length nh)%nat as Hlen by (apply lookup_lt_Some in Hk; lia).
    pose proof (landing_lt (length nh) k increment Hlen) as Hland.
    destruct (lookup_lt_is_Some_2 nh _ Hland) as [pt Hpt].
    exists pt. split; [done |].
    unfold landing in Hpt.
    rewrite clamp_branches in Hpt by lia.
    rewrite (index_ok nh (Z.of_nat k) p) by (rewrite ?Nat2Z.id; (lia || done)).
    simpl.
    destruct ((GoInt.add (Z.of_nat k) increment <? Z.of_nat (length nh))%Z
              && (GoInt.add (Z.of_nat k) increment >? 0)%Z) eqn:E1.
    { apply andb_true_iff in E1 as [? ?].
      rewrite (index_ok nh _ pt) by (lia || done). done. }
    destruct (GoInt.add (Z.of_nat k) increment >=? Z.of_nat (length nh))%Z eqn:E2.
    { rewrite sub_exact by (unfold fits, GoInt.in_range, GoInt.min_int,
                              GoInt.max_int in *; lia).
      rewrite (index_ok nh _ pt) by (lia || done). done. }
    destruct (GoInt.add (Z.of_nat k) increment <=? 0)%Z eqn:E3.
    { rewrite (index_ok nh _ pt) by (lia || done). done. }
    apply andb_false_iff in E1. lia.
  - simpl. apply Forall_cons in Hpre as [(c & Hq & Hs) Hpre].
    rewrite Hq, Hs.
    simpl in Hk.
    replace (k + S (length pre))%nat with (S k + length pre)%nat in * by lia.
    by apply IH.
Qed.

(** ** move, case by case *)

Lemma move_unfold cs increment :
  move cs increment =
  match visible cs with
  | [] => Ok (None, unselect_hidden <$> cs)
  | first :: _ =>
      if negb (existsb (fun c => negb (hidden c) && Selected c) cs)
      then Ok (Some first, set_Selected true first (unselect_hidden <$> cs))
      else scan (unselect_hidden <$> cs) (visible cs) increment 0 (visible cs)
  end.
Proof. unfold move. by rewrite collect_spec. Qed.

(** No visible choice: [move] returns nil. *)
Lemma move_none cs increment :
  visible cs = [] -> move cs increment = Ok (None, unselect_hidden <$> cs).
Proof. intros H. by rewrite move_unfold, H. Qed.

(** No visible choice is selected: the first one becomes the selection. *)
Lemma move_recover cs increment first rest :
  visible cs = first :: rest ->
  (forall q, q ∈ visible cs -> is_selected cs q = false) ->
  move cs increment =
  Ok (Some first, set_Selected true first (unselect_hidden <$> cs)).
Proof.
  intros Hv Hnone. rewrite move_unfold, Hv.
  destruct (existsb _ cs) eqn:E; [| done].
  apply selectedChoiceExists_true in E as (q & Hq & Hs).
  rewrite Hnone in Hs; done.
Qed.

(** The first selected visible choice is at index [i]: the selection moves
    to the clamped target. *)
Lemma move_selected cs increment i p :
  fits cs ->
  visible cs !! i = Some p ->
  is_selected cs p = true ->
  (forall j q, (j < i)%nat -> visible cs !! j = Some q -> is_selected cs q = false) ->
  exists pt,
    visible cs !! landing (length (visible cs)) i increment = Some pt /\
    move cs increment =
    Ok (Some pt, set_Selected true pt (set_Selected false p (unselect_hidden <$> cs))).
Proof.
  intros Hfits Hi Hp Hbefore. rewrite move_unfold.
  assert (p ∈ visible cs) as Hpv by (apply list_elem_of_lookup; eauto).
  destruct (visible cs) as [| first rest] eqn:Hv; [by apply elem_of_nil in Hpv |].
  rewrite <- Hv in *.
  assert (existsb (fun c => negb (hidden c) && Selected c) cs = true) as ->.
  { apply selectedChoiceExists_true. eauto. }
  simpl.
  pose proof (take_drop_middle _ _ _ Hi) as Hsplit.
  assert (length (take i (visible cs)) = i) as Hlen.
  { rewrite length_take. apply lookup_lt_Some in Hi. lia. }
  destruct (scan_found (unselect_hidden <$> cs) (visible cs) increment p
              (drop (S i) (visible cs)) (take i (visible cs)) 0)
    as (pt & Hpt & Hscan).
  - apply Forall_forall. intros q Hq.
    apply list_elem_of_lookup in Hq as [j Hj].
    assert (j < i)%nat as Hji.
    { apply lookup_lt_Some in Hj. rewrite length_take in Hj. lia. }
    rewrite lookup_take_lt in Hj by done.
    pose proof (Hbefore j q Hji Hj) as Hs.
    destruct (visible_lookup _ _ _ Hj) as (c & Hc & Hh).
    exists c. split; [by apply lookup_unselect_hidden |].
    unfold is_selected in Hs. by rewrite Hc in Hs.
  - by rewrite is_selected_unselect_hidden.
  - by rewrite Hlen.
  - by apply fits_visible.
  - exists pt. simpl in Hpt. rewrite Hlen in Hpt.
    split; [done |]. by rewrite Hsplit in Hscan.
Qed.

Lemma current_Some cs i p :
  current cs = Some (i, p) ->
  visible cs !! i = Some p /\ is_selected cs p = true /\
  (forall j q, (j < i)%nat -> visible cs !! j = Some q -> is_selected cs q = false).
Proof.
  unfold current. intros (Hi & Hp & Hbefore)%list_find_Some.
  split; [done |]. split; [done |].
  intros j q Hj Hq. specialize (Hbefore j q Hq Hj).
  by destruct (is_selected cs q).
Qed.

Lemma current_None cs :
  current cs = None -> forall q, q ∈ visible cs -> is_selected cs q = false.
Proof.
  unfold current. intros Hnone%list_find_None q Hq.
  rewrite Forall_forall in Hnone. specialize (Hnone q Hq).
  by destruct (is_selected cs q).
Qed.

(** [move] returns on every heap: none of its panics is reachable. *)
Lemma move_total cs increment :
  fits cs -> exists o h, move cs increment = Ok (o, h).
Proof.
  intros Hfits. destruct (visible cs) as [| first rest] eqn:Hv.
  - rewrite move_none by done. eauto.
  - destruct (current cs) as [[i p] |] eqn:Hc.
    + apply current_Some in Hc as (Hi & Hp & Hb).
      destruct (move_selected cs increment i p Hfits Hi Hp Hb) as (pt & _ & ->).
      eauto.
    + rewrite (move_recover cs increment first rest Hv (current_None cs Hc)).
      eauto.
Qed.

(** ** The selection after a move *)

Lemma selection_at_unique cs o : selection_at cs o -> unique_selected cs.
Proof.
  destruct o as [p |]; simpl.
  - intros [_ Hu] q1 q2 c1 c2 H1 H2 Hs1 Hs2.
    rewrite (Hu q1 c1 H1 Hs1). by rewrite (Hu q2 c2 H2 Hs2).
  - intros [_ Hn] q1 q2 c1 c2 H1 _ Hs1 _. rewrite (Hn q1 c1 H1) in Hs1. done.
Qed.

Lemma unique_at_most_one cs : unique_selected cs -> at_most_one cs.
Proof.
  intros Hu q1 q2 (c1 & H1 & _)%elem_of_visible (c2 & H2 & _)%elem_of_visible.
  unfold is_selected. rewrite H1, H2. intros Hs1 Hs2. by eapply Hu.
Qed.

(** At most one visible choice is selected when counting says so. *)
Lemma at_most_one_count cs :
  (length (filter (fun q => is_selected cs q = true) (visible cs)) <= 1)%nat ->
  at_most_one cs.
Proof.
  intros Hlen q1 q2 Hv1 Hv2 Hs1 Hs2.
  assert (q1 ∈ filter (fun q => is_selected cs q = true) (visible cs)) as H1
    by (by apply list_elem_of_filter).
  assert (q2 ∈ filter (fun q => is_selected cs q = true) (visible cs)) as H2
    by (by apply list_elem_of_filter).
  destruct (filter _ (visible cs)) as [| x [| y l]]; simpl in Hlen; [| | lia].
  - by apply elem_of_nil in H1.
  - apply list_elem_of_singleton in H1, H2. congruence.
Qed.

(** After [move] the selection is at the pointer it returns, whatever the
    increment; only selected flags have changed. *)
Lemma move_selection_at cs increment :
  fits cs -> at_most_one cs ->
  exists o h,
    move cs increment = Ok (o, h) /\ selection_at h o /\ erase h = erase cs.
Proof.
  intros Hfits Hone. destruct (visible cs) as [| first rest] eqn:Hv.
  - exists None, (unselect_hidden <$> cs).
    split; [by apply move_none |]. split; [| apply erase_unselect_hidden].
    simpl. split.
    + by rewrite (visible_erase _ cs) by apply erase_unselect_hidden.
    + intros q c Hq. destruct (Selected c) eqn:Hs; [| done].
      destruct (unselect_hidden_selected cs q c Hq Hs) as [Hc Hh].
      assert (q ∈ visible cs) as Hin by (apply elem_of_visible; eauto).
      rewrite Hv in Hin. by apply elem_of_nil in Hin.
  - assert (first ∈ visible cs) as Hfirst by (rewrite Hv; left).
    destruct (proj1 (elem_of_visible _ _) Hfirst) as (cf & Hcf & Hhf).
    destruct (current cs) as [[i p] |] eqn:Hc.
    + apply current_Some in Hc as (Hi & Hp & Hb).
      destruct (move_selected cs increment i p Hfits Hi Hp Hb) as (pt & Hpt & Hm).
      exists (Some pt), (set_Selected true pt
                          (set_Selected false p (unselect_hidden <$> cs))).
      split; [done |].
      split; [| by rewrite !erase_set_Selected, erase_unselect_hidden].
      assert (p ∈ visible cs) as Hpv by (apply list_elem_of_lookup; eauto).
      destruct (visible_lookup _ _ _ Hpt) as (ct & Hct & Hht).
      simpl. split.
      * rewrite lookup_set_Selected, decide_True by done.
        rewrite lookup_set_Selected, (lookup_unselect_hidden _ _ _ Hct Hht).
        case_decide; simpl; eauto.
      * intros q c Hq Hs. destruct (decide (pt = q)) as [| Hne]; [done |].
        rewrite lookup_set_Selected, decide_False in Hq by done.
        rewrite lookup_set_Selected in Hq.
        destruct (decide (p = q)) as [-> | Hnp].
        { destruct ((unselect_hidden <$> cs) !! q); simplify_eq/=. }
        destruct (unselect_hidden_selected cs q c Hq Hs) as [Hcq Hhq].
        exfalso. apply Hnp. apply Hone; [done | | done |].
        -- apply elem_of_visible. eauto.
        -- unfold is_selected. by rewrite Hcq.
    + pose proof (current_None cs Hc) as Hnone.
      exists (Some first), (set_Selected true first (unselect_hidden <$> cs)).
      split; [by eapply move_recover |].
      split; [| by rewrite erase_set_Selected, erase_unselect_hidden].
      simpl. split.
      * rewrite lookup_set_Selected, decide_True by done.
        rewrite (lookup_unselect_hidden _ _ _ Hcf Hhf). simpl. eauto.
      * intros q c Hq Hs. destruct (decide (first = q)) as [| Hne]; [done |].
        rewrite lookup_set_Selected, decide_False in Hq by done.
        destruct (unselect_hidden_selected cs q c Hq Hs) as [Hcq Hhq].
        assert (is_selected cs q = false) as Hsel.
        { apply Hnone, elem_of_visible. eauto. }
        unfold is_selected in Hsel. rewrite Hcq in Hsel. congruence.
Qed.

(** ** From the pointwise invariant to the counting one *)

Lemma filter_nil_lookup {A} (P : A -> Prop) `{!forall x, Decision (P x)}
    (l : list A) :
  (forall q y, l !! q = Some y -> ~ P y) -> filter P l = [].
Proof.
  induction l as [| x l IH]; intros Hn; [done |].
  rewrite filter_cons_False by (apply (Hn 0%nat); done).
  apply IH. intros q y Hq. by apply (Hn (S q)).
Qed.

Lemma filter_one_lookup {A} (P : A -> Prop) `{!forall x, Decision (P x)}
    (l : list A) p x :
  l !! p = Some x -> P x ->
  (forall q y, l !! q = Some y -> P y -> q = p) ->
  length (filter P l) = 1%nat.
Proof.
  revert p. induction l as [| a l IH]; intros p Hp HP Hu; [done |].
  destruct p as [| p]; simpl in Hp.
  - injection Hp as ->. rewrite filter_cons_True by done. simpl.
    rewrite (filter_nil_lookup P l); [done |].
    intros q y Hq HPy. by specialize (Hu (S q) y Hq HPy).
  - rewrite filter_cons_False.
    + apply (IH p); [done | done |].
      intros q y Hq HPy. specialize (Hu (S q) y Hq HPy). lia.
    + intros HPa. by specialize (Hu 0%nat a eq_refl HPa).
Qed.

Lemma visible_choices_nil cs : visible cs = [] <-> visible_choices cs = [].
Proof.
  unfold visible_choices. split.
  - intros Hv. apply filter_nil_lookup. intros q c Hq Hh.
    assert (q ∈ visible cs) as Hin by (apply elem_of_visible; eauto).
    rewrite Hv in Hin. by apply elem_of_nil in Hin.
  - intros Hf. destruct (visible cs) as [| q l] eqn:Hv; [done |].
    assert (q ∈ visible cs) as Hin by (rewrite Hv; left).
    apply elem_of_visible in Hin as (c & Hq & Hh).
    assert (c ∈ filter (fun c => hidden c = false) cs) as Hc.
    { apply list_elem_of_filter. split; [done |]. apply list_elem_of_lookup. eauto. }
    rewrite Hf in Hc. by apply elem_of_nil in Hc.
Qed.

Lemma selection_at_invariant cs o : selection_at cs o -> selection_invariant cs.
Proof.
  unfold selection_invariant, count_selected, visible_choices.
  destruct o as [p |]; simpl.
  - intros [(c & Hp & Hh & Hs) Hu].
    assert (length (filter (fun c => Selected c = true)
                      (filter (fun c => hidden c = false) cs)) = 1%nat) as Hone.
    { rewrite list_filter_filter.
      apply (filter_one_lookup _ cs p c); [done | done |].
      intros q y Hq [Hsy _]. by apply (Hu q y). }
    split; [lia |]. split; [done |].
    intros Hnil. rewrite Hnil in Hone. done.
  - intros [Hv Hn].
    apply visible_choices_nil in Hv. unfold visible_choices in Hv.
    rewrite Hv. simpl. split; [lia |]. split; [done |]. intros _.
    rewrite (filter_nil_lookup _ cs); [done |].
    intros q c Hq Hs. rewrite (Hn q c Hq) in Hs. done.
Qed.

(** ** The filter *)

Lemma erase_applyQuery q cs : erase (applyQuery q cs) = applyQuery q (erase cs).
Proof.
  unfold erase, applyQuery. rewrite <- !list_fmap_compose.
  by apply list_fmap_ext.
Qed.

Lemma applyQuery_applyQuery q' q cs :
  applyQuery q' (applyQuery q cs) = applyQuery q' cs.
Proof.
  unfold applyQuery. rewrite <- list_fmap_compose. by apply list_fmap_ext.
Qed.

Lemma applyQuery_cells q q' cs cs0 :
  erase cs = erase (applyQuery q cs0) ->
  erase (applyQuery q' cs) = erase (applyQuery q' cs0).
Proof.
  intros He. rewrite erase_applyQuery, He, erase_applyQuery.
  by rewrite applyQuery_applyQuery, <- erase_applyQuery.
Qed.

Lemma lookup_applyQuery q (cs : list Choice) k :
  applyQuery q cs !! k =
  (fun c => with_hidden (negb (containsSubstring (Value c) q)) c) <$> cs !! k.
Proof. unfold applyQuery. apply list_lookup_fmap. Qed.

(** Rendering the same query again leaves the flags as they are. *)
Lemma applyQuery_fix q cs cs0 :
  erase cs = erase (applyQuery q cs0) -> applyQuery q cs = cs.
Proof.
  intros He. apply list_eq. intros k. rewrite lookup_applyQuery.
  destruct (cs !! k) as [c |] eqn:Hk; [| done]. simpl. f_equal.
  destruct (erase_lookup _ _ k c He Hk) as (c' & Hk' & _ & Hv & Hh).
  rewrite lookup_applyQuery in Hk'.
  destruct (cs0 !! k) as [c0 |]; [| done]. simpl in Hk'. injection Hk' as <-.
  simpl in *. rewrite <- Hv, Hh. by destruct c.
Qed.

Lemma unique_selected_applyQuery q cs :
  unique_selected cs -> unique_selected (applyQuery q cs).
Proof.
  intros Hu q1 q2 c1 c2. rewrite !lookup_applyQuery.
  destruct (cs !! q1) as [d1 |] eqn:H1; [| done].
  destruct (cs !! q2) as [d2 |] eqn:H2; [| done].
  simpl. intros [= <-] [= <-]. simpl. by apply Hu.
Qed.

Lemma hasPrefix_empty s : hasPrefix s EmptyString = true.
Proof. by destruct s. Qed.

Lemma containsSubstring_empty s : containsSubstring s EmptyString = true.
Proof. destruct s; simpl; by rewrite ?hasPrefix_empty. Qed.

(** ** The cells pick builds *)

Lemma lookup_newChoices i vals k :
  newChoices i vals !! k =
  (fun v => {| Id := Z.of_nat (i + k); Value := v;
               Selected := (i + k =? 0)%nat; hidden := false |}) <$> vals !! k.
Proof.
  revert i k. induction vals as [| v vals IH]; intros i k; [done |].
  destruct k as [| k]; simpl.
  - by rewrite Nat.add_0_r.
  - rewrite IH. by replace (S i + k)%nat with (i + S k)%nat by lia.
Qed.

Lemma length_newChoices i vals : length (newChoices i vals) = length vals.
Proof. revert i. induction vals as [| v vals IH]; intros i; simpl; [done |].
  by rewrite IH. Qed.

Lemma applyQuery_newChoices vals :
  applyQuery EmptyString (newChoices 0 vals) = newChoices 0 vals.
Proof.
  apply list_eq. intros k. rewrite lookup_applyQuery, lookup_newChoices.
  destruct (vals !! k); [| done]. simpl.
  by rewrite containsSubstring_empty.
Qed.

Lemma session0_consistent vals : vals <> [] -> consistent vals (session0 vals).
Proof.
  intros Hne. split; simpl; [| by rewrite applyQuery_newChoices].
  destruct vals as [| v vals]; [done |]. split.
  - eexists. by split.
  - intros q c Hq Hs. rewrite lookup_newChoices in Hq.
    destruct ((v :: vals) !! q); [| done]. simpl in Hq. injection Hq as <-.
    simpl in Hs. by apply Nat.eqb_eq in Hs.
Qed.

Lemma consistent_length vals s :
  consistent vals s -> length (choices s) = length vals.
Proof.
  intros [_ He]. apply erase_length in He. rewrite He.
  unfold applyQuery. by rewrite length_fmap, length_newChoices.
Qed.

Lemma consistent_fits vals s : consistent vals s -> fits vals -> fits (choices s).
Proof. intros Hc. unfold fits. by rewrite (consistent_length vals s Hc). Qed.

(** ** One event *)

Lemma move_consistent vals cs q increment :
  fits vals -> unique_selected cs ->
  erase cs = erase (applyQuery q (newChoices 0 vals)) ->
  exists o h,
    move cs increment = Ok (o, h) /\
    consistent vals {| choices := h; selectedChoice := o; searchQuery := q |}.
Proof.
  intros Hfits Hu He.
  assert (fits cs) as Hfc.
  { unfold fits. rewrite (erase_length _ _ He). unfold applyQuery.
    by rewrite length_fmap, length_newChoices. }
  destruct (move_selection_at cs increment Hfc (unique_at_most_one _ Hu))
    as (o & h & Hm & Hsel & Heh).
  exists o, h. split; [done |]. split; simpl; [done | congruence].
Qed.

Lemma navigate_consistent vals s increment :
  fits vals -> consistent vals s ->
  exists o h,
    move (choices s) increment = Ok (o, h) /\
    consistent vals
      {| choices := h; selectedChoice := o; searchQuery := searchQuery s |}.
Proof.
  intros Hfits [Hsel He].
  apply move_consistent; [done | by eapply selection_at_unique | done].
Qed.

Lemma render_consistent vals scr s :
  consistent vals s ->
  render scr s =
  ({| rows := rows scr;
      frames := frames scr ++
                [mkFrame (choices s) (selectedChoice s) (searchQuery s)] |}, s).
Proof.
  intros [_ He]. unfold render.
  rewrite (applyQuery_fix _ _ _ He). by destruct s.
Qed.

(** A query edit: the flags are recomputed for the new query and the
    selection is moved up by the number of choices. *)
Lemma edit_consistent vals s q' :
  fits vals -> consistent vals s ->
  exists o h,
    move (applyQuery q' (choices s))
         (GoInt.neg (Z.of_nat (length (applyQuery q' (choices s))))) = Ok (o, h) /\
    consistent vals {| choices := h; selectedChoice := o; searchQuery := q' |}.
Proof.
  intros Hfits [Hsel He]. apply move_consistent; [done | |].
  - apply unique_selected_applyQuery. by eapply selection_at_unique.
  - by eapply applyQuery_cells.
Qed.

Lemma handle_consistent question vals ev scr s :
  fits vals -> consistent vals s ->
  exists r, handle question ev scr s = Ok r /\ handled vals s r.
Proof.
  intros Hfits Hc.
  assert (forall increment scr',
    exists r, (s' ← navigate (fun cs _ => move cs increment) 0%Z s;
               Ok (scr', s', Running)) = Ok r /\ handled vals s r) as Hnav.
  { intros increment scr'.
    destruct (navigate_consistent vals s increment Hfits Hc) as (o & h & Hm & Hc').
    unfold navigate. rewrite Hm. simpl. eexists. split; [done |]. done. }
  assert (forall q',
    exists r,
      (let s1 := {| choices := choices s; selectedChoice := selectedChoice s;
                    searchQuery := q' |} in
       let '(scr2, s2) := render scr s1 in
       s' ← navigate moveUp (len_choices s2) s2; Ok (scr2, s', Running)) = Ok r
      /\ handled vals s r) as Hedit.
  { intros q'.
    destruct (edit_consistent vals s q' Hfits Hc) as (o & h & Hm & Hc').
    unfold render, navigate, moveUp, len_choices. simpl. rewrite Hm. simpl.
    eexists. split; [done |]. done. }
  destruct ev as [k | height |]; simpl.
  - destruct k; simpl;
      try (by apply (Hnav _ scr));
      try (by eexists; split; [done |]; simpl; auto).
    + destruct (0 <? String.length (searchQuery s))%nat; [apply Hedit |].
      eexists. split; [done |]. done.
    + destruct (0 <? String.length (searchQuery s))%nat; [apply Hedit |].
      eexists. split; [done |]. done.
    + apply Hedit.
  - eexists. split; [done |]. done.
  - eexists. split; [done |]. done.
Qed.

(** ** The loop *)

Lemma loop_nil question scr s :
  loop question [] scr s = let '(scr1, s1) := render scr s in Ok (Waiting scr1 s1).
Proof. done. Qed.

Lemma loop_cons question ev evs scr s :
  loop question (ev :: evs) scr s =
  let '(scr1, s1) := render scr s in
  '(scr2, s2, status) ← handle question ev scr1 s1;
  match status with
  | Quit => Ok (Closed scr2 s2 evs)
  | Running => loop question evs scr2 s2
  end.
Proof. done. Qed.

Lemma loop_settled question vals evs :
  forall scr s,
    fits vals -> consistent vals s ->
    exists l, loop question evs scr s = Ok l /\ settled vals l.
Proof.
  induction evs as [| ev evs IH]; intros scr s Hfits Hc;
    rewrite ?loop_nil, ?loop_cons, (render_consistent vals scr s Hc).
  - eexists. split; [done |]. done.
  - destruct (handle_consistent question vals ev
                {| rows := rows scr;
                   frames := frames scr ++
                     [mkFrame (choices s) (selectedChoice s) (searchQuery s)] |}
                s Hfits Hc) as ([[scr2 s2] st] & -> & Hh).
    simpl. destruct st.
    + by apply IH.
    + eexists. split; [done |]. simpl in *.
      destruct Hh as (Hcs & Hq & Hsel). exists (selectedChoice s).
      split; [| done]. rewrite Hcs, Hq. by destruct s.
Qed.

(** The loop, one event after a prefix that left it waiting. *)
Lemma loop_app question ev rest pre :
  forall scr s scr1 s1,
    loop question pre scr s = Ok (Waiting scr1 s1) ->
    loop question (pre ++ ev :: rest) scr s =
    '(scr2, s2, status) ← handle question ev scr1 s1;
    match status with
    | Quit => Ok (Closed scr2 s2 rest)
    | Running => loop question rest scr2 s2
    end.
Proof.
  induction pre as [| e pre IH]; intros scr s scr1 s1; simpl app;
    rewrite ?loop_nil, !loop_cons.
  - destruct (render scr s) as [scr' s']. by intros [= -> ->].
  - destruct (render scr s) as [scr' s'].
    destruct (handle question e scr' s') as [[[scr2 s2] st] | f]; simpl; [| done].
    destruct st; [apply IH | done].
Qed.

Lemma loop_waiting_consistent question vals pre scr scr1 s1 :
  fits vals -> vals <> [] ->
  loop question pre scr (session0 vals) = Ok (Waiting scr1 s1) ->
  consistent vals s1.
Proof.
  intros Hfits Hne Hl.
  destruct (loop_settled question vals pre scr (session0 vals) Hfits
              (session0_consistent vals Hne)) as (l & Hl' & Hs).
  rewrite Hl in Hl'. by injection Hl' as <-.
Qed.

(** ** The selection invariant *)

(** C1.  Among the visible choices at most one is selected, exactly one
    when a choice is visible, and no choice is selected when none is
    visible: of the cells [pick] constructs; of the cells the loop holds
    after any sequence of events (moves of any size, query edits, resizes,
    up to and including the event that ends the session); and of the heap
    [move] returns, for any increment, from a heap with at most one visible
    choice selected. *)
Theorem selection_invariant_maintained (question : string)
    (choicesToPickFrom : list string) (scr : Screen) (evs : list Event) :
  fits choicesToPickFrom ->
  selection_invariant (newChoices 0 choicesToPickFrom) /\
  (choicesToPickFrom <> [] ->
   exists l, loop question evs scr (session0 choicesToPickFrom) = Ok l /\
             selection_invariant (choices (final_session l))) /\
  (forall cs increment, fits cs -> at_most_one cs ->
   exists o h, move cs increment = Ok (o, h) /\ selection_invariant h).
Proof.
  intros Hfits. split; [| split].
  - destruct choicesToPickFrom as [| v vals].
    + apply (selection_at_invariant [] None). by split.
    + apply (selection_at_invariant _ (Some 0%nat)).
      by apply (session0_consistent (v :: vals)).
  - intros Hne.
    destruct (loop_settled question choicesToPickFrom evs scr
                (session0 choicesToPickFrom) Hfits
                (session0_consistent _ Hne)) as (l & Hl & Hs).
    exists l. split; [done |]. destruct l as [scr' s rest | scr' s]; simpl in *.
    + destruct Hs as (o & [Hsel _] & _). by eapply selection_at_invariant.
    + destruct Hs as [Hsel _]. by eapply selection_at_invariant.
  - intros cs increment Hfc Hone.
    destruct (move_selection_at cs increment Hfc Hone) as (o & h & Hm & Hsel & _).
    exists o, h. split; [done |]. by eapply selection_at_invariant.
Qed.

Lemma selection_invariant_maintained_witness :
  exists l,
    loop "Pick:" [EventKey KeyDown; EventKey (KeyRune 97); EventKey KeyEnd]
      (mkScreen 24 []) (session0 ["apple"; "banana"; "cherry"]) = Ok l /\
    selection_invariant (choices (final_session l)).
Proof.
  exact (proj1 (proj2 (selection_invariant_maintained "Pick:"
                         ["apple"; "banana"; "cherry"] (mkScreen 24 [])
                         [EventKey KeyDown; EventKey (KeyRune 97); EventKey KeyEnd]
                         ltac:(by vm_compute)))
           ltac:(done)).
Defined.

(** ** The explicit panic of move *)

Lemma index_not_wrong (s : list Ptr) z : index s z <> Panic SomethingWentWrong.
Proof.
  unfold index. destruct (z <? 0)%Z; [done |]. by destruct (s !! Z.to_nat z).
Qed.

Lemma bind_index_not_wrong (s : list Ptr) z
    (k : Ptr -> Res (option Ptr * list Choice)) :
  (forall p, k p <> Panic SomethingWentWrong) ->
  (index s z ≫= k) <> Panic SomethingWentWrong.
Proof.
  intros Hk. pose proof (index_not_wrong s z) as Hi.
  destruct (index s z) as [p | f]; simpl; [apply Hk |].
  intros [= ->]. done.
Qed.

(** The scan reaches the panic only past a list without a selected cell. *)
Lemma scan_wrong h nh increment :
  forall rest k,
    scan h nh increment k rest = Panic SomethingWentWrong ->
    Forall (fun q => is_selected h q = false) rest.
Proof.
  induction rest as [| q rest IH]; intros k Hs; [constructor |].
  simpl in Hs. unfold is_selected.
  destruct (h !! q) as [c |] eqn:Hq; [| done].
  destruct (Selected c) eqn:Hc.
  - exfalso. revert Hs.
    repeat match goal with
           | |- context [if ?b then _ else _] => destruct b
           end;
      try done;
      (apply bind_index_not_wrong; intros ?;
       apply bind_index_not_wrong; intros ?; done).
  - constructor; [by rewrite Hq | by eapply IH].
Qed.

(** C10.  The [panic("Something went wrong")] at the end of [move] is
    unreachable: on no heap and for no increment does [move] end there
    (when a visible choice is selected the scan finds it; otherwise one of
    the two earlier returns is taken), and on every heap whose length an
    [int] can hold [move] returns without any panic. *)
Theorem move_panic_unreachable (cs : list Choice) (increment : Z) :
  move cs increment <> Panic SomethingWentWrong /\
  (fits cs -> exists o h, move cs increment = Ok (o, h)).
Proof.
  split; [| apply move_total].
  rewrite move_unfold. destruct (visible cs) as [| first rest] eqn:Hv; [done |].
  destruct (existsb _ cs) eqn:E; [| done]. cbn [negb]. rewrite <- Hv.
  intros Hs%scan_wrong.
  apply selectedChoiceExists_true in E as (q & Hq & Hsel).
  rewrite Forall_forall in Hs. specialize (Hs q Hq).
  rewrite is_selected_unselect_hidden in Hs by done. congruence.
Qed.

Lemma move_panic_unreachable_witness :
  fits [mkChoice 0 "a" false true; mkChoice 1 "b" true false] /\
  exists o h,
    move [mkChoice 0 "a" false true; mkChoice 1 "b" true false] 1 = Ok (o, h).
Proof.
  assert (fits [mkChoice 0 "a" false true; mkChoice 1 "b" true false]) as Hf
    by (by vm_compute).
  split; [exact Hf |].
  exact (proj2 (move_panic_unreachable _ 1%Z) Hf).
Defined.

(** ** Clamped movement *)

Lemma landing_exact len i increment :
  GoInt.in_range (Z.of_nat i + increment) ->
  landing len i increment = Z.to_nat (clamp (Z.of_nat len) (Z.of_nat i + increment)).
Proof. intros Hr. unfold landing. by rewrite add_exact. Qed.

(** Taking the flag off the selected cell and putting it back changes nothing. *)
Lemma set_Selected_back h p :
  is_selected h p = true ->
  set_Selected true p (set_Selected false p h) = h.
Proof.
  intros Hs. apply list_eq. intros q.
  rewrite !lookup_set_Selected. case_decide as E; [| done]. subst q.
  unfold is_selected in Hs. destruct (h !! p) as [c |]; [| done]. simpl.
  f_equal. destruct c. simpl in *. by subst.
Qed.

(** The sum [i + increment] of [move] is an [int]: with the second of
    three choices selected and the largest [int] as step, it wraps to the
    smallest [int] and [moveDown] selects the first choice, not the last. *)
Lemma move_wraps :
  current abc = Some (1%nat, 1%nat) /\ (1 <= GoInt.max_int)%Z /\
  ~ moves_as_specified abc 1 1 GoInt.max_int.
Proof.
  split; [by vm_compute |]. split; [by vm_compute |].
  intros [_ (pt & Hpt & Hm & _)].
  vm_compute in Hpt. injection Hpt as <-.
  vm_compute in Hm. discriminate Hm.
Qed.

(** C3, as the code has it.  With the first selected visible choice at
    index [i] of the [L] visible ones and a step of at least 1 whose sum
    with [i] an [int] can hold, [moveUp] lands on index [clamp L (i - step)]
    and [moveDown] on index [clamp L (i + step)]: the selected flag is
    taken off the old cell and put on the target, whose pointer is
    returned.  When the clamped target is [i] itself the same choice is
    returned and it is still selected. *)
Theorem move_clamps (cs : list Choice) (i : nat) (p : Ptr) (step : Z) :
  fits cs ->
  current cs = Some (i, p) ->
  (1 <= step <= GoInt.max_int)%Z ->
  (Z.of_nat i + step <= GoInt.max_int)%Z ->
  moves_as_specified cs i p step.
Proof.
  intros Hfits Hc Hstep Hsum. unfold moves_as_specified.
  apply current_Some in Hc as (Hi & Hp & Hb).
  assert (p ∈ visible cs) as Hpv by (apply list_elem_of_lookup; eauto).
  assert (is_selected (unselect_hidden <$> cs) p = true) as Hph
    by (by rewrite is_selected_unselect_hidden).
  assert (GoInt.neg step = (- step)%Z) as Hneg.
  { apply neg_exact. unfold GoInt.in_range, GoInt.min_int, GoInt.max_int in *. lia. }
  split.
  - destruct (move_selected cs (GoInt.neg step) i p Hfits Hi Hp Hb)
      as (pt & Hpt & Hm).
    rewrite Hneg in *. rewrite landing_exact in Hpt.
    2:{ unfold GoInt.in_range, GoInt.min_int, GoInt.max_int in *. lia. }
    replace (Z.of_nat i + - step)%Z with (Z.of_nat i - step)%Z in Hpt by lia.
    exists pt. unfold moveUp. rewrite Hneg. split; [done |]. split; [done |].
    intros Heq. rewrite Heq, Nat2Z.id, Hi in Hpt. injection Hpt as <-.
    rewrite Hm. by rewrite set_Selected_back.
  - destruct (move_selected cs step i p Hfits Hi Hp Hb) as (pt & Hpt & Hm).
    rewrite landing_exact in Hpt.
    2:{ unfold GoInt.in_range, GoInt.min_int, GoInt.max_int in *. lia. }
    exists pt. unfold moveDown. split; [done |]. split; [done |].
    intros Heq. rewrite Heq, Nat2Z.id, Hi in Hpt. injection Hpt as <-.
    rewrite Hm. by rewrite set_Selected_back.
Qed.

Lemma move_clamps_witness :
  exists pt,
    visible abc !! Z.to_nat (clamp 3 (1 + 1)) = Some pt /\
    moveDown abc 1 =
    Ok (Some pt, set_Selected true pt
                   (set_Selected false 1%nat (unselect_hidden <$> abc))).
Proof.
  destruct (move_clamps abc 1 1 1
              ltac:(by vm_compute) ltac:(by vm_compute)
              ltac:(by vm_compute) ltac:(by vm_compute))
    as [_ (pt & Hpt & Hm & _)].
  exists pt. split; [exact Hpt | exact Hm].
Defined.

(** ** Home and End *)

(** C6.  On any heap with exactly one visible choice selected, wherever it
    is, moving up by a step no smaller than the number of visible choices
    selects the first visible choice, and moving down by such a step
    selects the last one.  The step [len(choices)] that [pick] passes for
    Home and End is such a step, as is the number of visible choices. *)
Theorem home_end (cs : list Choice) (i : nat) (p : Ptr) (step : Z) :
  fits cs ->
  at_most_one cs ->
  current cs = Some (i, p) ->
  (Z.of_nat (length (visible cs)) <= step)%Z ->
  (Z.of_nat (length cs) + step <= GoInt.max_int)%Z ->
  exists first final h1 h2,
    head (visible cs) = Some first /\
    last (visible cs) = Some final /\
    moveUp cs step = Ok (Some first, h1) /\ selection_at h1 (Some first) /\
    moveDown cs step = Ok (Some final, h2) /\ selection_at h2 (Some final).
Proof.
  intros Hfits Hone Hc Hstep Hsum.
  apply current_Some in Hc as (Hi & Hp & Hb).
  pose proof (lookup_lt_Some _ _ _ Hi) as HiL.
  pose proof (length_visible_from 0 cs) as HL. fold (visible cs) in HL.
  assert (GoInt.neg step = (- step)%Z) as Hneg.
  { apply neg_exact. unfold GoInt.in_range, GoInt.min_int, GoInt.max_int in *. lia. }
  destruct (move_selected cs (GoInt.neg step) i p Hfits Hi Hp Hb)
    as (pu & Hpu & Hmu).
  destruct (move_selected cs step i p Hfits Hi Hp Hb) as (pd & Hpd & Hmd).
  rewrite Hneg in Hpu. rewrite landing_exact in Hpu, Hpd;
    try (unfold GoInt.in_range, GoInt.min_int, GoInt.max_int in *; lia).
  replace (Z.to_nat (clamp (Z.of_nat (length (visible cs)))
                       (Z.of_nat i + - step))) with 0%nat in Hpu
    by (unfold clamp; lia).
  replace (Z.to_nat (clamp (Z.of_nat (length (visible cs)))
                       (Z.of_nat i + step)))
    with (pred (length (visible cs))) in Hpd by (unfold clamp; lia).
  destruct (move_selection_at cs (GoInt.neg step) Hfits Hone)
    as (o1 & h1 & Hm1 & Hs1 & _).
  destruct (move_selection_at cs step Hfits Hone) as (o2 & h2 & Hm2 & Hs2 & _).
  rewrite Hmu in Hm1. injection Hm1 as <- <-.
  rewrite Hmd in Hm2. injection Hm2 as <- <-.
  exists pu, pd. eexists. eexists.
  split; [by rewrite head_lookup |]. split; [by rewrite last_lookup |].
  unfold moveUp, moveDown. by rewrite Hmu, Hmd.
Qed.

Lemma home_end_witness :
  exists h1 h2,
    moveUp abc 3 = Ok (Some 0%nat, h1) /\ selection_at h1 (Some 0%nat) /\
    moveDown abc 3 = Ok (Some 2%nat, h2) /\ selection_at h2 (Some 2%nat).
Proof.
  destruct (home_end abc 1 1 3
              ltac:(by vm_compute)
              (at_most_one_count abc ltac:(vm_compute; lia))
              ltac:(by vm_compute)
              ltac:(by vm_compute) ltac:(by vm_compute))
    as (first & final & h1 & h2 & Hf & Hl & Hu & Hsu & Hd & Hsd).
  injection Hf as <-. injection Hl as <-.
  exists h1, h2. split; [exact Hu |]. split; [exact Hsu |].
  split; [exact Hd | exact Hsd].
Defined.

(** ** The page size *)

(** C7.  For a terminal of [R >= 0] rows and a question of [headerLines]
    lines, [computePageSize] is [R - headerLines - 1] when
    [R > headerLines] and [R] itself otherwise, so it is never negative;
    used as the step of a page move it makes neither [moveUp] nor
    [moveDown] panic, and from a selection at index [i] of the visible
    choices [moveUp] lands on an index at most [i] and [moveDown] on an
    index at least [i]. *)
Theorem computePageSize_step (scr : Screen) (question : string)
    (cs : list Choice) :
  let R := rows scr in
  let headerLines := Z.of_nat (length (strings_Split question newline)) in
  let step := computePageSize scr question in
  (0 <= R <= GoInt.max_int)%Z ->
  (headerLines < GoInt.max_int)%Z ->
  fits cs ->
  (Z.of_nat (length cs) + R <= GoInt.max_int)%Z ->
  ((headerLines < R)%Z -> step = (R - headerLines - 1)%Z) /\
  ((R <= headerLines)%Z -> step = R) /\
  (0 <= step <= R)%Z /\
  exists o1 h1 o2 h2,
    moveUp cs step = Ok (o1, h1) /\
    moveDown cs step = Ok (o2, h2) /\
    forall i p, current cs = Some (i, p) ->
      exists ju jd pu pd,
        o1 = Some pu /\ visible cs !! ju = Some pu /\ (ju <= i)%nat /\
        o2 = Some pd /\ visible cs !! jd = Some pd /\ (i <= jd)%nat.
Proof.
  intros R headerLines step HR Hq Hfits Hsum.
  assert (((headerLines < R)%Z -> step = (R - headerLines - 1)%Z) /\
          ((R <= headerLines)%Z -> step = R)) as [Hbig Hsmall].
  { unfold step, computePageSize. fold R headerLines.
    destruct (R >? headerLines)%Z eqn:E.
    - split; [| lia]. intros _.
      rewrite add_exact, sub_exact;
        unfold GoInt.in_range, GoInt.min_int, GoInt.max_int in *; lia.
    - split; [lia | done]. }
  assert (0 <= step <= R)%Z as Hstep.
  { destruct (Z_lt_le_dec headerLines R) as [Hlt | Hle].
    - rewrite (Hbig Hlt). lia.
    - rewrite (Hsmall Hle). lia. }
  split; [done |]. split; [done |]. split; [done |].
  assert (GoInt.neg step = (- step)%Z) as Hneg.
  { apply neg_exact. unfold GoInt.in_range, GoInt.min_int, GoInt.max_int in *. lia. }
  unfold moveUp, moveDown. rewrite Hneg.
  destruct (current cs) as [[i p] |] eqn:Hc.
  - apply current_Some in Hc as (Hi & Hp & Hb).
    pose proof (lookup_lt_Some _ _ _ Hi) as HiL.
    pose proof (length_visible_from 0 cs) as HL. fold (visible cs) in HL.
    destruct (move_selected cs (- step) i p Hfits Hi Hp Hb) as (pu & Hpu & ->).
    destruct (move_selected cs step i p Hfits Hi Hp Hb) as (pd & Hpd & ->).
    rewrite landing_exact in Hpu, Hpd;
      try (unfold GoInt.in_range, GoInt.min_int, GoInt.max_int in *; lia).
    do 4 eexists. split; [done |]. split; [done |].
    intros i' p' [= <- <-].
    eexists _, _, pu, pd.
    split; [done |]. split; [exact Hpu |]. split; [unfold clamp; lia |].
    split; [done |]. split; [exact Hpd |]. unfold clamp; lia.
  - destruct (move_total cs (- step) Hfits) as (o1 & h1 & ->).
    destruct (move_total cs step Hfits) as (o2 & h2 & ->).
    exists o1, h1, o2, h2. split; [done |]. split; [done |]. done.
Qed.

Lemma computePageSize_step_witness :
  computePageSize (mkScreen 2 []) ("a" +:+ String newline "b") = 2%Z.
Proof.
  exact (proj1 (proj2 (computePageSize_step (mkScreen 2 [])
                         ("a" +:+ String newline "b") abc
                         ltac:(by vm_compute) ltac:(by vm_compute)
                         ltac:(by vm_compute) ltac:(by vm_compute)))
           ltac:(by vm_compute)).
Defined.

(** ** The result of pick *)

Lemma pick_nonempty question vals scr evs :
  vals <> [] ->
  pick question vals scr evs =
  l ← loop question evs scr (session0 vals);
  match l with
  | Waiting scr' _ => Ok (Pending scr')
  | Closed scr' s _ =>
      match selectedChoice s with
      | None => Ok (Returned EmptyString 0 (Some ErrNoChoiceSelected) scr')
      | Some p =>
          match choices s !! p with
          | Some c => Ok (Returned (Value c) (Id c) None scr')
          | None => Panic NilDereference
          end
      end
  end.
Proof. intros Hne. unfold pick. by destruct vals. Qed.

(** A cell of a consistent session: its id is its position, its value the
    input at that position, and it is hidden exactly when its value does
    not contain the query. *)
Lemma consistent_cell vals s p c :
  consistent vals s -> choices s !! p = Some c ->
  Id c = Z.of_nat p /\ vals !! p = Some (Value c) /\
  hidden c = negb (containsSubstring (Value c) (searchQuery s)).
Proof.
  intros [_ He] Hp.
  destruct (erase_lookup _ _ p c He Hp) as (c' & Hc' & Hid & Hv & Hh).
  rewrite lookup_applyQuery, lookup_newChoices in Hc'.
  destruct (vals !! p) as [v |]; [| done]. simpl in Hc'. injection Hc' as <-.
  simpl in *. subst v. by rewrite <- Hh, <- Hid.
Qed.

(** No event takes a frame off the screen. *)
Lemma handle_frames question ev scr s scr' s' st :
  handle question ev scr s = Ok (scr', s', st) ->
  (length (frames scr) <= length (frames scr'))%nat.
Proof.
  assert (forall (m : Res Session) scr0,
            (s0 ← m; Ok (scr0, s0, Running)) = Ok (scr', s', st) ->
            scr0 = scr') as Hnav.
  { intros [s0 | f] scr0; simpl; [by intros [= -> _ _] | done]. }
  destruct ev as [k | height |]; simpl.
  - destruct k; simpl;
      try (by intros ->%Hnav);
      try (by intros [= <- _ _]).
    + destruct (0 <? String.length (searchQuery s))%nat.
      * intros <-%Hnav. simpl. rewrite length_app. lia.
      * by intros [= <- _ _].
    + destruct (0 <? String.length (searchQuery s))%nat.
      * intros <-%Hnav. simpl. rewrite length_app. lia.
      * by intros [= <- _ _].
    + intros <-%Hnav. simpl. rewrite length_app. lia.
  - by intros [= <- _ _].
  - by intros [= <- _ _].
Qed.

(** Every pass of the loop starts by rendering: the loop leaves at least
    one more frame on the screen than it found. *)
Lemma loop_frames question evs :
  forall scr s l,
    loop question evs scr s = Ok l ->
    (length (frames scr) <
     length (frames match l with Closed scr' _ _ => scr' | Waiting scr' _ => scr' end))%nat.
Proof.
  induction evs as [| ev evs IH]; intros scr s l;
    rewrite ?loop_nil, ?loop_cons; unfold render.
  - intros [= <-]. simpl. rewrite length_app. simpl. lia.
  - destruct (handle question ev _ _) as [[[scr2 s2] st] | f] eqn:Hh; simpl; [| done].
    apply handle_frames in Hh. simpl in Hh. rewrite length_app in Hh. simpl in Hh.
    destruct st.
    + intros Hl%IH. lia.
    + intros [= <-]. simpl. lia.
Qed.

(** C9.  With an empty list of choices [pick] returns [ErrNoChoice] at
    once, whatever the question, the screen and the pending events: it
    returns before any cell is built and before the loop is entered, and
    the screen it hands back is the one it was given, without a frame
    rendered on it. *)
Theorem pick_no_choices (question : string) (scr : Screen) (evs : list Event) :
  pick question [] scr evs = Ok (Returned EmptyString 0 (Some ErrNoChoice) scr).
Proof. unfold pick. simpl. reflexivity. Qed.

(** C5.  When a confirm key (Enter or Right) arrives in a session that is
    waiting in state [s1]: if [selectedChoice] points to a cell, [pick]
    returns the value and the id of that cell, the cell is visible and
    selected, and its id is its position in the input list, where its
    value stands; if [selectedChoice] is nil, no choice is visible and
    [pick] returns the no-selection error. *)
Theorem pick_confirm (question : string) (choicesToPickFrom : list string)
    (scr : Screen) (pre rest : list Event) (k : Key) (scr1 : Screen) (s1 : Session) :
  fits choicesToPickFrom ->
  choicesToPickFrom <> [] ->
  confirm_key k = true ->
  loop question pre scr (session0 choicesToPickFrom) = Ok (Waiting scr1 s1) ->
  match selectedChoice s1 with
  | Some p =>
      exists c,
        choices s1 !! p = Some c /\
        hidden c = false /\ Selected c = true /\
        Id c = Z.of_nat p /\ choicesToPickFrom !! p = Some (Value c) /\
        pick question choicesToPickFrom scr (pre ++ EventKey k :: rest) =
        Ok (Returned (Value c) (Id c) None scr1)
  | None =>
      visible (choices s1) = [] /\
      pick question choicesToPickFrom scr (pre ++ EventKey k :: rest) =
      Ok (Returned EmptyString 0 (Some ErrNoChoiceSelected) scr1)
  end.
Proof.
  intros Hfits Hne Hk Hl.
  pose proof (loop_waiting_consistent _ _ _ _ _ _ Hfits Hne Hl) as Hc.
  rewrite pick_nonempty, (loop_app _ _ _ _ _ _ _ _ Hl) by done.
  assert (handle question (EventKey k) scr1 s1 = Ok (scr1, s1, Quit)) as ->
    by (by destruct k).
  simpl. pose proof Hc as [Hsel _].
  destruct (selectedChoice s1) as [p |]; simpl in *.
  - destruct Hsel as [(c & Hpc & Hh & Hs) _]. exists c. rewrite Hpc.
    by destruct (consistent_cell choicesToPickFrom s1 p c Hc Hpc) as (Hid & Hv & _).
  - by destruct Hsel as [Hv _].
Qed.

Lemma pick_confirm_witness :
  pick "Pick:" ["a"; "b"; "c"] (mkScreen 24 [])
    ([EventKey KeyDown; EventKey KeyDown] ++ EventKey KeyEnter :: []) =
  Ok (Returned "c" 2 None
        (mkScreen 24
           [mkFrame (newChoices 0 ["a"; "b"; "c"]) (Some 0%nat) "";
            mkFrame [mkChoice 0 "a" false false; mkChoice 1 "b" true false;
                     mkChoice 2 "c" false false] (Some 1%nat) "";
            mkFrame [mkChoice 0 "a" false false; mkChoice 1 "b" false false;
                     mkChoice 2 "c" true false] (Some 2%nat) ""])).
Proof.
  pose proof (pick_confirm "Pick:" ["a"; "b"; "c"] (mkScreen 24 [])
                [EventKey KeyDown; EventKey KeyDown] [] KeyEnter _ _
                ltac:(by vm_compute) ltac:(done) eq_refl eq_refl) as H.
  simpl in H. destruct H as (c & Hc & _ & _ & _ & _ & Hp).
  injection Hc as <-. exact Hp.
Defined.

(** ** Aborting *)

Lemma abort_key_aborts k :
  (forall question scr s,
     handle question (EventKey k) scr s =
     Ok (scr, {| choices := choices s; selectedChoice := None;
                 searchQuery := searchQuery s |}, Quit)) ->
  aborts k.
Proof.
  intros Hk question vals scr pre rest scr1 s1 Hne Hl.
  assert (loop question (pre ++ EventKey k :: rest) scr (session0 vals) =
          Ok (Closed scr1 {| choices := choices s1; selectedChoice := None;
                             searchQuery := searchQuery s1 |} rest)) as Hloop.
  { rewrite (loop_app _ _ _ _ _ _ _ _ Hl), Hk. done. }
  split; [done |]. by rewrite pick_nonempty, Hloop.
Qed.

(** The letter q does not abort: typed first of all before the choices x
    and q, it goes into the query, and Enter then returns the choice q. *)
Lemma q_does_not_abort : ~ aborts (KeyRune rune_q).
Proof.
  intros H.
  destruct (H "Pick:" ["x"; "q"] (mkScreen 24 []) [] [EventKey KeyEnter] _ _
              ltac:(done) eq_refl) as [_ Hp].
  vm_compute in Hp. discriminate Hp.
Qed.

(** C8, as the code has it.  Escape, Ctrl-C and Left abort: pressed in any
    waiting session they set [selectedChoice] to nil, close the loop, and
    [pick] returns the no-selection error and no value, whichever choice
    was selected.  The letter q is a printable character like any other: in
    a consistent session it is appended to the query and the loop goes on. *)
Theorem abort_keys :
  aborts KeyEscape /\ aborts KeyCtrlC /\ aborts KeyLeft /\
  (forall question choicesToPickFrom scr s,
     fits choicesToPickFrom -> consistent choicesToPickFrom s ->
     exists scr' s',
       handle question (EventKey (KeyRune rune_q)) scr s = Ok (scr', s', Running) /\
       searchQuery s' = searchQuery s +:+ "q").
Proof.
  split; [by apply abort_key_aborts |].
  split; [by apply abort_key_aborts |].
  split; [by apply abort_key_aborts |].
  intros question vals scr s Hfits Hc.
  destruct (edit_consistent vals s (searchQuery s +:+ "q") Hfits Hc)
    as (o & h & Hm & _).
  simpl. unfold render, navigate, moveUp, len_choices. simpl.
  change (string_of_rune rune_q) with "q". rewrite Hm. simpl. eauto.
Qed.

Lemma abort_keys_witness :
  pick "Pick:" ["x"; "y"] (mkScreen 24 []) ([] ++ EventKey KeyEscape :: []) =
  Ok (Returned "" 0 (Some ErrNoChoiceSelected)
        (mkScreen 24 [mkFrame (newChoices 0 ["x"; "y"]) (Some 0%nat) ""])).
Proof.
  exact (proj2 (proj1 abort_keys "Pick:" ["x"; "y"] (mkScreen 24 []) []
                  [] _ _ ltac:(done) eq_refl)).
Defined.

(** ** Query edits *)

Lemma hasPrefix_spec s prefix :
  hasPrefix s prefix = true <-> exists post, s = prefix +:+ post.
Proof.
  revert s. induction prefix as [| a prefix IH]; intros s.
  - rewrite hasPrefix_empty. split; [eauto | done].
  - destruct s as [| b s]; simpl.
    + split; [done | by intros [? ?]].
    + rewrite andb_true_iff, Ascii.eqb_eq, IH. split.
      * intros [-> [post ->]]. eauto.
      * intros [post [= -> ->]]. eauto.
Qed.

(** The substring test is the literal one. *)
Lemma containsSubstring_spec value query :
  containsSubstring value query = true <->
  exists pre post, value = pre +:+ query +:+ post.
Proof.
  induction value as [| a value IH].
  - simpl. rewrite orb_true_iff. split.
    + intros [H | H]; [| done]. destruct query; [| done]. by exists "", "".
    + intros (pre & post & H). left.
      destruct pre; [| done]. by destruct query.
  - change (containsSubstring (String a value) query)
      with (hasPrefix (String a value) query || containsSubstring value query).
    rewrite orb_true_iff, IH, hasPrefix_spec. split.
    + intros [[post H] | (pre & post & ->)].
      * exists "", post. done.
      * exists (String a pre), post. done.
    + intros (pre & post & H). destruct pre as [| b pre]; simpl in H.
      * left. eauto.
      * right. injection H as -> ->. eauto.
Qed.

(** Moving up by at least the number of visible choices returns the first
    of them, or nil when there is none. *)
Lemma move_up_all cs step :
  fits cs ->
  (Z.of_nat (length (visible cs)) <= step <= GoInt.max_int)%Z ->
  exists h, move cs (GoInt.neg step) = Ok (head (visible cs), h).
Proof.
  intros Hfits Hstep.
  assert (GoInt.neg step = (- step)%Z) as ->.
  { apply neg_exact. unfold GoInt.in_range, GoInt.min_int, GoInt.max_int in *. lia. }
  destruct (visible cs) as [| first rest] eqn:Hv.
  - rewrite move_none by done. eauto.
  - rewrite <- Hv in *. destruct (current cs) as [[i p] |] eqn:Hc.
    + apply current_Some in Hc as (Hi & Hp & Hb).
      pose proof (lookup_lt_Some _ _ _ Hi) as HiL.
      destruct (move_selected cs (- step) i p Hfits Hi Hp Hb) as (pt & Hpt & ->).
      rewrite landing_exact in Hpt
        by (unfold GoInt.in_range, GoInt.min_int, GoInt.max_int in *; lia).
      replace (Z.to_nat _) with 0%nat in Hpt by (unfold clamp; lia).
      rewrite head_lookup, Hpt. eauto.
    + rewrite (move_recover cs (- step) first rest Hv (current_None cs Hc)).
      rewrite Hv. simpl. eauto.
Qed.

(** C2.  A query edit in a waiting session (a printable character, or a
    backspace on a non-empty query) leaves the loop running with the edited
    query; afterwards a choice is visible exactly when its value contains
    the query as a literal substring, the choices are those of the input,
    and the selection is the first visible choice in id order, nil when no
    choice is visible. *)
Theorem query_edit (question : string) (choicesToPickFrom : list string)
    (scr : Screen) (pre : list Event) (scr1 : Screen) (s1 : Session)
    (ev : Event) (query : string) :
  fits choicesToPickFrom ->
  choicesToPickFrom <> [] ->
  loop question pre scr (session0 choicesToPickFrom) = Ok (Waiting scr1 s1) ->
  edited (searchQuery s1) ev = Some query ->
  exists scr2 s2,
    handle question ev scr1 s1 = Ok (scr2, s2, Running) /\
    searchQuery s2 = query /\
    length (choices s2) = length choicesToPickFrom /\
    (forall p c, choices s2 !! p = Some c ->
       choicesToPickFrom !! p = Some (Value c) /\
       (hidden c = false <-> exists a b, Value c = a +:+ query +:+ b)) /\
    selectedChoice s2 = head (visible (choices s2)) /\
    selection_at (choices s2) (selectedChoice s2).
Proof.
  intros Hfits Hne Hl Hev.
  pose proof (loop_waiting_consistent _ _ _ _ _ _ Hfits Hne Hl) as Hc.
  destruct (edit_consistent choicesToPickFrom s1 query Hfits Hc)
    as (o & h & Hm & Hc').
  assert (fits (applyQuery query (choices s1))) as Hfa.
  { unfold fits, applyQuery. rewrite length_fmap.
    by rewrite (consistent_length _ _ Hc). }
  destruct (move_up_all (applyQuery query (choices s1))
              (Z.of_nat (length (applyQuery query (choices s1)))) Hfa)
    as (h' & Hm').
  { split; [| exact Hfa]. pose proof (length_visible_from 0
      (applyQuery query (choices s1))). unfold visible. lia. }
  rewrite Hm in Hm'. injection Hm' as -> <-.
  assert (handle question ev scr1 s1 =
          Ok ({| rows := rows scr1;
                 frames := frames scr1 ++
                   [mkFrame (applyQuery query (choices s1)) (selectedChoice s1)
                      query] |},
              {| choices := h;
                 selectedChoice := head (visible (applyQuery query (choices s1)));
                 searchQuery := query |}, Running)) as Hh.
  { destruct ev as [k | |]; try done. destruct k; try done; simpl in *.
    - destruct (0 <? String.length (searchQuery s1))%nat; [| done].
      injection Hev as <-. unfold navigate, moveUp, len_choices. simpl.
      by rewrite Hm.
    - destruct (0 <? String.length (searchQuery s1))%nat; [| done].
      injection Hev as <-. unfold navigate, moveUp, len_choices. simpl.
      by rewrite Hm.
    - injection Hev as <-. unfold navigate, moveUp, len_choices. simpl.
      by rewrite Hm. }
  do 2 eexists. split; [exact Hh |]. simpl.
  assert (visible h = visible (applyQuery query (choices s1))) as Hvis.
  { destruct (move_selection_at (applyQuery query (choices s1))
                (GoInt.neg (Z.of_nat (length (applyQuery query (choices s1)))))
                Hfa) as (o2 & h2 & Hm2 & _ & He).
    - apply unique_at_most_one, unique_selected_applyQuery.
      destruct Hc as [Hsel _]. by eapply selection_at_unique.
    - rewrite Hm in Hm2. injection Hm2 as <- <-. by apply visible_erase. }
  split; [done |]. split; [exact (consistent_length _ _ Hc') |]. split.
  - intros p c Hp.
    destruct (consistent_cell _ _ p c Hc' Hp) as (_ & Hv & Hhid). simpl in *.
    split; [done |]. rewrite Hhid, negb_false_iff. apply containsSubstring_spec.
  - rewrite Hvis. split; [done |]. by destruct Hc' as [Hsel _].
Qed.

Lemma query_edit_witness :
  exists scr2 s2,
    handle "Pick:" (EventKey (KeyRune 110))
      (mkScreen 24 [mkFrame (newChoices 0 ["apple"; "banana"; "cherry"])
                      (Some 0%nat) ""])
      (session0 ["apple"; "banana"; "cherry"]) = Ok (scr2, s2, Running) /\
    searchQuery s2 = "n" /\
    selectedChoice s2 = head (visible (choices s2)).
Proof.
  destruct (query_edit "Pick:" ["apple"; "banana"; "cherry"] (mkScreen 24 [])
              [] _ _ (EventKey (KeyRune 110)) "n"
              ltac:(by vm_compute) ltac:(done) eq_refl eq_refl)
    as (scr2 & s2 & Hh & Hq & _ & _ & Hs & _).
  exists scr2, s2. split; [exact Hh |]. split; [exact Hq | exact Hs].
Defined.

(** ** The viewport *)

Lemma render_question_spec lines :
  forall ln : Z,
    (0 <= ln)%Z -> (ln + Z.of_nat (length lines) <= GoInt.max_int)%Z ->
    Legacy.render_question ln lines =
    (imap (fun j line => Legacy.mkPrint 1 (ln + Z.of_nat j) line Legacy.Plain) lines,
     (ln + Z.of_nat (length lines))%Z).
Proof.
  induction lines as [| line lines IH]; intros ln H0 Hmax; simpl.
  - by rewrite Z.add_0_r.
  - simpl in Hmax. rewrite add_exact
      by (unfold GoInt.in_range, GoInt.min_int, GoInt.max_int in *; lia).
    rewrite IH by lia. rewrite Z.add_0_r. f_equal; [| lia]. f_equal.
    apply imap_ext. intros j x _. simpl. f_equal. lia.
Qed.

(** The loop over the options prints the choices from the first one whose
    id exceeds the bound, on consecutive rows. *)
Lemma render_options_spec bound cs :
  forall (k : nat) (ln : Z),
    (forall j c, cs !! j = Some c -> Id c = Z.of_nat (k + j)) ->
    (0 <= ln)%Z -> (ln + Z.of_nat (length cs) <= GoInt.max_int)%Z ->
    Legacy.render_options bound ln cs =
    imap (fun j c => line_of (ln + Z.of_nat j) c)
         (drop (Z.to_nat (bound + 1 - Z.of_nat k)) cs).
Proof.
  induction cs as [| c cs IH]; intros k ln Hid H0 Hmax.
  - by rewrite drop_nil.
  - simpl in Hmax. cbn [Legacy.render_options].
    assert (Id c = Z.of_nat k) as ->
      by (rewrite (Hid 0%nat c eq_refl); f_equal; lia).
    assert (forall j c', cs !! j = Some c' -> Id c' = Z.of_nat (S k + j)) as Hid'.
    { intros j c' Hj. rewrite (Hid (S j) c' Hj). f_equal. lia. }
    destruct (Z.of_nat k <=? bound)%Z eqn:E.
    + assert ((Z.of_nat k >? bound)%Z = false) as -> by lia. simpl.
      rewrite (IH (S k) ln Hid') by lia.
      replace (Z.to_nat (bound + 1 - Z.of_nat k))
        with (S (Z.to_nat (bound + 1 - Z.of_nat (S k)))) by lia.
      done.
    + simpl.
      replace (Z.to_nat (bound + 1 - Z.of_nat k)) with 0%nat by lia.
      rewrite drop_0, imap_cons. rewrite Z.add_0_r. f_equal.
      rewrite add_exact
        by (unfold GoInt.in_range, GoInt.min_int, GoInt.max_int in *; lia).
      rewrite (IH (S k) (ln + 1)%Z Hid') by lia.
      replace (Z.to_nat (bound + 1 - Z.of_nat (S k))) with 0%nat by lia.
      rewrite drop_0. apply imap_ext. intros j x _. simpl. f_equal. lia.
Qed.

(** The frame [render] prints: the header, then the choices from
    [window_start] on, one per row. *)
Lemma render_frame height question cs s c :
  let questionLines := strings_Split question newline in
  ids_are_positions cs ->
  cs !! s = Some c ->
  (0 <= height <= GoInt.max_int)%Z ->
  (Z.of_nat (length cs) + Z.of_nat (length questionLines) + 2 <= GoInt.max_int)%Z ->
  Legacy.render height question cs (Some s) =
  Ok (header_of questionLines ++
      imap (fun j c => line_of (Z.of_nat (length questionLines) + Z.of_nat j) c)
           (drop (window_start height (length questionLines) s) cs)).
Proof.
  intros questionLines Hid Hs Hh Hsize. unfold Legacy.render.
  fold questionLines.
  pose proof (lookup_lt_Some _ _ _ Hs) as Hlt.
  rewrite render_question_spec by lia. simpl. rewrite Hs.
  rewrite (Hid s c Hs).
  assert (forall a b, (0 <= a)%Z -> (0 <= b)%Z ->
            (a + b <= GoInt.max_int)%Z -> GoInt.add a b = (a + b)%Z) as Hadd.
  { intros a b Ha Hb Hab. apply add_exact.
    unfold GoInt.in_range, GoInt.min_int, GoInt.max_int in *. lia. }
  unfold window_start, bump. unfold header_of.
  destruct (Z.of_nat s >? height)%Z eqn:E.
  - rewrite (Hadd (Z.of_nat s) (Z.of_nat (length questionLines))) by lia.
    rewrite (Hadd (Z.of_nat s + Z.of_nat (length questionLines))%Z 1%Z) by lia.
    rewrite (Hadd (Z.of_nat s + Z.of_nat (length questionLines) + 1)%Z 1%Z) by lia.
    rewrite sub_exact
      by (unfold GoInt.in_range, GoInt.min_int, GoInt.max_int in *; lia).
    rewrite (render_options_spec _ cs 0 _); [| by intros j c' Hj; apply Hid | lia | lia].
    f_equal. f_equal. f_equal. f_equal. lia.
  - rewrite (Hadd (Z.of_nat s) (Z.of_nat (length questionLines))) by lia.
    rewrite (Hadd (Z.of_nat s + Z.of_nat (length questionLines))%Z 1%Z) by lia.
    rewrite sub_exact
      by (unfold GoInt.in_range, GoInt.min_int, GoInt.max_int in *; lia).
    rewrite (render_options_spec _ cs 0 _); [| by intros j c' Hj; apply Hid | lia | lia].
    f_equal. f_equal. f_equal. f_equal. lia.
Qed.

(** The cells [pick] builds keep their ids when the selection moves. *)
Lemma newChoices_ids vals (f : Choice -> Choice) :
  (forall c, Id (f c) = Id c) -> ids_are_positions (f <$> newChoices 0 vals).
Proof.
  intros Hf k c. rewrite list_lookup_fmap, lookup_newChoices.
  destruct (vals !! k); [| done]. simpl. intros [= <-]. by rewrite Hf.
Qed.

(** At six choices, five rows and a one-line question, the choice at
    position 3 is within the first four positions, yet the first choice is
    not drawn: the window starts at the second choice. *)
Lemma window_not_as_specified : ~ window_as_specified 5 "Pick:" (six 3) 3.
Proof.
  intros (out & c & _ & Hr & _ & Hfirst & _).
  vm_compute in Hr. injection Hr as <-.
  destruct Hfirst as (c0 & Hc0 & Hout); [by vm_compute |].
  vm_compute in Hc0. injection Hc0 as <-. vm_compute in Hout. discriminate Hout.
Qed.

(** C4, as the code has it.  With the ids being the positions and the
    choice at position [s] selected, [render] prints the header and then,
    one per row from row [headerLines] on, the choices from position
    [window_start] on; the choices before it are skipped.  The window
    starts at the first choice exactly while [s + headerLines + 2] does not
    exceed the height, that is while the row of the selected choice is at
    most [height - 2].  When the terminal leaves two rows below the header
    (three when the selected id exceeds the height) the selected choice is
    printed, on row [min (headerLines + s) (height - 2)] ([height - 3] in
    place of [height - 2] when its id exceeds the height), a row of the
    terminal below the header: once the window scrolls, the selected choice
    is on the last row but one. *)
Theorem render_window (height : Z) (question : string) (cs : list Choice)
    (s : nat) (c : Choice) :
  let questionLines := strings_Split question newline in
  let headerLines := length questionLines in
  let first := window_start height headerLines s in
  let row := Z.min (Z.of_nat headerLines + Z.of_nat s) (height - 2 - bump height s) in
  ids_are_positions cs ->
  cs !! s = Some c ->
  (0 <= height <= GoInt.max_int)%Z ->
  (Z.of_nat (length cs) + Z.of_nat headerLines + 2 <= GoInt.max_int)%Z ->
  exists out,
    Legacy.render height question cs (Some s) = Ok out /\
    out = header_of questionLines ++
          imap (fun j c => line_of (Z.of_nat headerLines + Z.of_nat j) c)
               (drop first cs) /\
    (first = 0%nat <-> (Z.of_nat s + Z.of_nat headerLines + 2 <= height)%Z) /\
    ((Z.of_nat headerLines + 2 + bump height s <= height)%Z ->
     (first <= s)%nat /\
     out !! (headerLines + (s - first))%nat = Some (line_of row c) /\
     (Z.of_nat headerLines <= row < height)%Z).
Proof.
  intros questionLines headerLines first row Hid Hs Hh Hsize.
  eexists. split; [by apply (render_frame height question cs s c) |].
  split; [done |].
  fold questionLines headerLines first.
  pose proof (lookup_lt_Some _ _ _ Hs) as Hlt.
  assert (bump height s = 0 \/ bump height s = 1 /\ height < Z.of_nat s)%Z as Hb.
  { unfold bump. destruct (Z.of_nat s >? height)%Z eqn:E; [right | left]; lia. }
  split.
  - unfold first, window_start. lia.
  - intros Hroom.
    assert (first <= s)%nat as Hfs by (unfold first, window_start; lia).
    split; [done |]. split.
    + rewrite lookup_app_r by (unfold header_of; rewrite length_imap; lia).
      unfold header_of. rewrite length_imap.
      replace (headerLines + (s - first) - length questionLines)%nat
        with (s - first)%nat by (unfold headerLines; lia).
      rewrite list_lookup_imap, lookup_drop.
      replace (first + (s - first))%nat with s by lia.
      rewrite Hs. simpl. f_equal. f_equal.
      unfold row, first, window_start. lia.
    + unfold row. lia.
Qed.

Lemma render_window_witness :
  exists out,
    Legacy.render 5 "Pick:" (six 4) (Some 4%nat) = Ok out /\
    out !! 3%nat = Some (Legacy.mkPrint 1 3 "> e" Legacy.Highlighted).
Proof.
  destruct (render_window 5 "Pick:" (six 4) 4 (mkChoice 4 "e" true false)
              (newChoices_ids _ (fun c => with_Selected (Id c =? 4)%Z c)
                 (fun c => eq_refl)) eq_refl ltac:(by vm_compute) ltac:(by vm_compute))
    as (out & Hr & _ & _ & Hsel).
  exists out. split; [exact Hr |].
  destruct (Hsel ltac:(by vm_compute)) as (_ & Hrow & _). exact Hrow.
Defined.

(** * Further properties of the code *)

(** ** The cells of a session in which nothing is typed *)

Lemma lookup_cells_at vals m k :
  cells_at vals m !! k =
  (fun v => mkChoice (Z.of_nat k) v (k =? m)%nat false) <$> vals !! k.
Proof.
  unfold cells_at. rewrite list_lookup_fmap, lookup_newChoices.
  destruct (vals !! k) as [v |]; [| done]. simpl. unfold with_Selected. simpl.
  f_equal. f_equal.
  destruct (Nat.eqb_spec k m) as [-> | Hne]; [apply Z.eqb_refl |].
  apply Z.eqb_neq. lia.
Qed.

Lemma length_cells_at vals m : length (cells_at vals m) = length vals.
Proof. unfold cells_at. by rewrite length_fmap, length_newChoices. Qed.

Lemma cells_at_zero vals : newChoices 0 vals = cells_at vals 0.
Proof.
  apply list_eq. intros k. rewrite lookup_cells_at, lookup_newChoices.
  by destruct (vals !! k).
Qed.

Lemma visible_from_all p cs :
  Forall (fun c => hidden c = false) cs -> visible_from p cs = seq p (length cs).
Proof.
  revert p. induction cs as [| c cs IH]; intros p Hall; [done |].
  apply Forall_cons in Hall as [Hc Hall]. simpl. rewrite Hc. f_equal. by apply IH.
Qed.

Lemma visible_cells_at vals m : visible (cells_at vals m) = seq 0 (length vals).
Proof.
  unfold visible. rewrite visible_from_all, length_cells_at; [done |].
  apply Forall_forall. intros c Hc. apply list_elem_of_lookup in Hc as [k Hk].
  rewrite lookup_cells_at in Hk. destruct (vals !! k); [| done].
  by injection Hk as <-.
Qed.

Lemma is_selected_cells_at vals m k :
  (k < length vals)%nat -> is_selected (cells_at vals m) k = (k =? m)%nat.
Proof.
  intros Hk. unfold is_selected. rewrite lookup_cells_at.
  destruct (lookup_lt_is_Some_2 vals k Hk) as [v ->]. done.
Qed.

Lemma unselect_hidden_cells_at vals m :
  unselect_hidden <$> cells_at vals m = cells_at vals m.
Proof.
  apply list_eq. intros k. rewrite list_lookup_fmap, lookup_cells_at.
  by destruct (vals !! k).
Qed.

(** Moving the flag from [m] to [t] in the cells. *)
Lemma cells_at_set vals m t :
  (t < length vals)%nat ->
  set_Selected true t (set_Selected false m (cells_at vals m)) = cells_at vals t.
Proof.
  intros Ht. apply list_eq. intros k.
  rewrite !lookup_set_Selected, !lookup_cells_at.
  destruct (vals !! k) as [v |] eqn:Hv; simpl; [| by repeat case_decide].
  destruct (decide (t = k)) as [-> | Htk].
  - rewrite Nat.eqb_refl. by case_decide.
  - destruct (decide (m = k)) as [-> | Hmk]; simpl; unfold with_Selected; simpl;
      f_equal; f_equal.
    + symmetry. apply Nat.eqb_neq. lia.
    + rewrite (proj2 (Nat.eqb_neq k m)) by lia.
      symmetry. apply Nat.eqb_neq. lia.
Qed.

(** On these cells [move] is a move of the cursor. *)
Lemma cells_at_move vals m increment :
  fits vals -> (m < length vals)%nat ->
  move (cells_at vals m) increment =
  Ok (Some (landing (length vals) m increment),
      cells_at vals (landing (length vals) m increment)).
Proof.
  intros Hfits Hm.
  destruct (move_selected (cells_at vals m) increment m m) as (pt & Hpt & ->).
  - unfold fits. by rewrite length_cells_at.
  - rewrite visible_cells_at. by apply lookup_seq_lt.
  - rewrite is_selected_cells_at, Nat.eqb_refl; done.
  - intros j q Hj. rewrite visible_cells_at. intros Hq.
    apply lookup_seq in Hq as [-> Hlt]. simpl.
    rewrite is_selected_cells_at by done. apply Nat.eqb_neq. lia.
  - rewrite visible_cells_at, length_seq in Hpt.
    apply lookup_seq in Hpt as [-> Hlt]. simpl.
    by rewrite unselect_hidden_cells_at, cells_at_set.
Qed.

(** ** A session in which nothing is typed is a cursor *)

Lemma applyQuery_cells_at vals pos :
  applyQuery EmptyString (cells_at vals pos) = cells_at vals pos.
Proof.
  apply list_eq. intros k. rewrite lookup_applyQuery, lookup_cells_at.
  destruct (vals !! k); [| done]. simpl. by rewrite containsSubstring_empty.
Qed.

Lemma render_browsing scr vals pos :
  render scr (browsing vals pos) =
  ({| rows := rows scr;
      frames := frames scr ++
                [mkFrame (cells_at vals pos) (Some pos) EmptyString] |},
   browsing vals pos).
Proof. unfold render, browsing. simpl. by rewrite applyQuery_cells_at. Qed.

Lemma navigate_browsing vals pos increment :
  fits vals -> (pos < length vals)%nat ->
  navigate (fun cs _ => move cs increment) 0%Z (browsing vals pos) =
  Ok (browsing vals (landing (length vals) pos increment)).
Proof.
  intros Hfits Hpos. unfold navigate, browsing. simpl.
  by rewrite cells_at_move.
Qed.

Lemma landing_browsing n pos increment :
  (pos < n)%nat -> (landing n pos increment < n)%nat.
Proof. intros H. apply landing_lt. lia. Qed.

Lemma loop_browsing question vals evs :
  forall scr pos,
    fits vals -> (pos < length vals)%nat ->
    forallb (fun ev => negb (is_rune ev)) evs = true ->
    exists l,
      loop question evs scr (browsing vals pos) = Ok l /\
      match cursor question (length vals) (rows scr) pos evs with
      | None => exists scr' pos', l = Waiting scr' (browsing vals pos')
      | Some None =>
          exists scr' pos' rest,
            l = Closed scr' {| choices := cells_at vals pos';
                               selectedChoice := None;
                               searchQuery := EmptyString |} rest
      | Some (Some pos') =>
          (pos' < length vals)%nat /\
          exists scr' rest, l = Closed scr' (browsing vals pos') rest
      end.
Proof.
  induction evs as [| ev evs IH]; intros scr pos Hfits Hpos Hev;
    rewrite ?loop_nil, ?loop_cons, render_browsing.
  - eexists. split; [done |]. simpl. eauto.
  - simpl in Hev. apply andb_true_iff in Hev as [Hev Hevs].
    set (scr1 := {| rows := rows scr; frames := _ |}).
    assert (forall increment,
      exists l,
        ('(scr2, s2, status) ←
           (s' ← navigate (fun cs _ => move cs increment) 0%Z (browsing vals pos);
            Ok (scr1, s', Running));
         match status with
         | Quit => Ok (Closed scr2 s2 evs)
         | Running => loop question evs scr2 s2
         end) = Ok l /\
        match cursor question (length vals) (rows scr)
                (landing (length vals) pos increment) evs with
        | None => exists scr' pos', l = Waiting scr' (browsing vals pos')
        | Some None =>
            exists scr' pos' rest,
              l = Closed scr' {| choices := cells_at vals pos';
                                 selectedChoice := None;
                                 searchQuery := EmptyString |} rest
        | Some (Some pos') =>
            (pos' < length vals)%nat /\
            exists scr' rest, l = Closed scr' (browsing vals pos') rest
        end) as Hnav.
    { intros increment. rewrite navigate_browsing by done. simpl.
      apply (IH scr1); [done | by apply landing_browsing | done]. }
    assert (exists l,
        loop question evs scr1 (browsing vals pos) = Ok l /\
        match cursor question (length vals) (rows scr) pos evs with
        | None => exists scr' pos', l = Waiting scr' (browsing vals pos')
        | Some None =>
            exists scr' pos' rest,
              l = Closed scr' {| choices := cells_at vals pos';
                                 selectedChoice := None;
                                 searchQuery := EmptyString |} rest
        | Some (Some pos') =>
            (pos' < length vals)%nat /\
            exists scr' rest, l = Closed scr' (browsing vals pos') rest
        end) as Hskip by (by apply (IH scr1)).
    destruct ev as [k | height |]; [destruct k | |]; simpl in *;
      try done; try (by apply Hnav); try (by apply Hskip);
      try (by eexists; split; [done |]; simpl; eauto).
    + unfold len_choices. simpl. rewrite length_cells_at. apply Hnav.
    + unfold len_choices. simpl. rewrite length_cells_at. apply Hnav.
    + by apply (IH {| rows := height; frames := frames scr1 |}).
Qed.

Lemma pick_browsing question vals scr evs :
  fits vals -> vals <> [] ->
  forallb (fun ev => negb (is_rune ev)) evs = true ->
  picked_as vals (cursor question (length vals) (rows scr) 0 evs)
    (pick question vals scr evs).
Proof.
  intros Hfits Hne Hev. rewrite pick_nonempty by done.
  assert (session0 vals = browsing vals 0) as ->
    by (unfold session0, browsing; by rewrite cells_at_zero).
  destruct (loop_browsing question vals evs scr 0 Hfits) as (l & -> & Hl);
    [destruct vals; simpl; [done | lia] | done |].
  unfold picked_as.
  destruct (cursor question (length vals) (rows scr) 0 evs) as [[pos |] |].
  - destruct Hl as (Hpos & scr' & rest & ->). simpl.
    rewrite lookup_cells_at.
    destruct (lookup_lt_is_Some_2 vals pos Hpos) as [v Hv]. rewrite Hv. simpl.
    eauto.
  - destruct Hl as (scr' & pos' & rest & ->). simpl. eauto.
  - destruct Hl as (scr' & pos' & ->). simpl. eauto.
Qed.

(** X1.  As long as no character is typed, a session of [pick] is a
    cursor over the input: the arrow, Home, End and page keys move it by
    clamped steps, resizes change the page size only, Enter and Right
    return the value and the position under the cursor, Escape, Ctrl-C and
    Left return the no-selection error, and [pick] waits when the events
    end before any of these.  No panic is reached on the way. *)
Theorem pick_cursor (question : string) (choicesToPickFrom : list string)
    (scr : Screen) (evs : list Event) :
  fits choicesToPickFrom ->
  choicesToPickFrom <> [] ->
  forallb (fun ev => negb (is_rune ev)) evs = true ->
  picked_as choicesToPickFrom
    (cursor question (length choicesToPickFrom) (rows scr) 0 evs)
    (pick question choicesToPickFrom scr evs).
Proof. apply pick_browsing. Qed.

Lemma pick_cursor_witness :
  exists scr' v,
    ["a"; "b"; "c"; "d"] !! 2%nat = Some v /\
    pick "Pick:" ["a"; "b"; "c"; "d"] (mkScreen 24 [])
      [EventKey KeyEnd; EventKey KeyUp; EventResize 10; EventKey KeyEnter] =
    Ok (Returned v 2 None scr').
Proof.
  exact (pick_cursor "Pick:" ["a"; "b"; "c"; "d"] (mkScreen 24 [])
           [EventKey KeyEnd; EventKey KeyUp; EventResize 10; EventKey KeyEnter]
           ltac:(by vm_compute) ltac:(done) eq_refl).
Defined.

Lemma landing_one n pos :
  (Z.of_nat n <= GoInt.max_int)%Z -> (pos < n)%nat ->
  landing n pos 1 = Nat.min (S pos) (n - 1).
Proof.
  intros Hn Hpos. rewrite landing_exact
    by (unfold GoInt.in_range, GoInt.min_int, GoInt.max_int in *; lia).
  unfold clamp. lia.
Qed.

Lemma cursor_downs question n height rest :
  (Z.of_nat n <= GoInt.max_int)%Z ->
  forall k pos,
    (pos < n)%nat ->
    cursor question n height pos (replicate k (EventKey KeyDown) ++ rest) =
    cursor question n height (Nat.min (pos + k) (n - 1)) rest.
Proof.
  intros Hn. induction k as [| k IH]; intros pos Hpos.
  - simpl. f_equal. lia.
  - cbn [replicate app cursor]. rewrite landing_one by done.
    rewrite IH by lia. f_equal. lia.
Qed.

(** X2.  From the initial selection, [k] presses of Down followed by Enter
    return the choice at position [min k (n - 1)] of the [n] choices:
    [n - 1] presses reach the last choice, and every further press stays
    there. *)
Theorem pick_walk_down (question : string) (choicesToPickFrom : list string)
    (scr : Screen) (k : nat) :
  fits choicesToPickFrom ->
  choicesToPickFrom <> [] ->
  exists scr' v,
    choicesToPickFrom !! Nat.min k (length choicesToPickFrom - 1) = Some v /\
    pick question choicesToPickFrom scr
      (replicate k (EventKey KeyDown) ++ [EventKey KeyEnter]) =
    Ok (Returned v (Z.of_nat (Nat.min k (length choicesToPickFrom - 1))) None scr').
Proof.
  intros Hfits Hne.
  pose proof (pick_browsing question choicesToPickFrom scr
                (replicate k (EventKey KeyDown) ++ [EventKey KeyEnter])
                Hfits Hne) as H.
  rewrite cursor_downs in H;
    [| done | destruct choicesToPickFrom; simpl; [done | lia]].
  simpl in H. apply H. clear H.
  rewrite forallb_app. apply andb_true_iff. split; [| done].
  induction k; [done | simpl; done].
Qed.

Lemma pick_walk_down_witness :
  exists scr' v,
    ["a"; "b"; "c"] !! Nat.min 5 (3 - 1) = Some v /\
    pick "Pick:" ["a"; "b"; "c"] (mkScreen 24 [])
      (replicate 5 (EventKey KeyDown) ++ [EventKey KeyEnter]) =
    Ok (Returned v (Z.of_nat (Nat.min 5 (3 - 1))) None scr').
Proof.
  exact (pick_walk_down "Pick:" ["a"; "b"; "c"] (mkScreen 24 []) 5
           ltac:(by vm_compute) ltac:(done)).
Defined.

(** ** Only five keys end a session *)

Lemma handle_quit_closing question ev scr s scr' s' :
  handle question ev scr s = Ok (scr', s', Quit) -> closing ev = true.
Proof.
  assert (forall (m : Res Session) scr0,
            (s0 ← m; Ok (scr0, s0, Running)) <> Ok (scr', s', Quit)) as Hnav.
  { intros [s0 | f] scr0; simpl; congruence. }
  destruct ev as [k | height |]; simpl; [| done | done].
  destruct k; simpl; try done; try (by intros ?%Hnav).
  - destruct (0 <? String.length (searchQuery s))%nat; [by intros ?%Hnav | done].
  - destruct (0 <? String.length (searchQuery s))%nat; [by intros ?%Hnav | done].
Qed.

Lemma loop_waits question vals evs :
  forall scr s,
    fits vals -> consistent vals s ->
    forallb (fun ev => negb (closing ev)) evs = true ->
    exists scr' s', loop question evs scr s = Ok (Waiting scr' s').
Proof.
  induction evs as [| ev evs IH]; intros scr s Hfits Hc Hev;
    rewrite ?loop_nil, ?loop_cons, (render_consistent vals scr s Hc).
  - eauto.
  - simpl in Hev. apply andb_true_iff in Hev as [Hev Hevs].
    destruct (handle_consistent question vals ev
                {| rows := rows scr;
                   frames := frames scr ++
                     [mkFrame (choices s) (selectedChoice s) (searchQuery s)] |}
                s Hfits Hc) as ([[scr2 s2] st] & Hh & Hhd).
    rewrite Hh. simpl. destruct st.
    + by apply IH.
    + apply handle_quit_closing in Hh. by rewrite Hh in Hev.
Qed.

(** X3.  Enter, Right, Escape, Ctrl-C and Left are the only events that
    end a session: on events without any of them, whatever else is pressed
    or typed, [pick] reaches no panic and is still waiting when they are
    used up. *)
Theorem pick_waits (question : string) (choicesToPickFrom : list string)
    (scr : Screen) (evs : list Event) :
  fits choicesToPickFrom ->
  choicesToPickFrom <> [] ->
  forallb (fun ev => negb (closing ev)) evs = true ->
  exists scr', pick question choicesToPickFrom scr evs = Ok (Pending scr').
Proof.
  intros Hfits Hne Hev. rewrite pick_nonempty by done.
  destruct (loop_waits question choicesToPickFrom evs scr
              (session0 choicesToPickFrom) Hfits
              (session0_consistent _ Hne) Hev) as (scr' & s' & ->).
  simpl. eauto.
Qed.

Lemma pick_waits_witness :
  exists scr',
    pick "Pick:" ["quit"; "stay"] (mkScreen 24 [])
      [EventKey (KeyRune 113); EventKey (KeyRune 32); EventKey KeyPgDn;
       EventKey KeyBackspace; EventResize 3; EventKey KeyHome] =
    Ok (Pending scr').
Proof.
  exact (pick_waits "Pick:" ["quit"; "stay"] (mkScreen 24 [])
           [EventKey (KeyRune 113); EventKey (KeyRune 32); EventKey KeyPgDn;
            EventKey KeyBackspace; EventResize 3; EventKey KeyHome]
           ltac:(by vm_compute) ltac:(done) eq_refl).
Defined.

(** ** What move touches and what it returns *)

Lemma hidden_unselect_hidden (cs : list Choice) q c :
  (unselect_hidden <$> cs) !! q = Some c -> hidden c = true -> Selected c = false.
Proof.
  rewrite list_lookup_fmap. destruct (cs !! q) as [c0 |]; [| done].
  simpl. intros [= <-]. unfold unselect_hidden.
  destruct (hidden c0) eqn:E; [done | by rewrite E].
Qed.

Lemma hidden_set_Selected b p (h : list Choice) :
  (b = true -> forall c, h !! p = Some c -> hidden c = false) ->
  (forall q c, h !! q = Some c -> hidden c = true -> Selected c = false) ->
  forall q c, set_Selected b p h !! q = Some c -> hidden c = true ->
              Selected c = false.
Proof.
  intros Hp Hh q c. rewrite lookup_set_Selected.
  destruct (decide (p = q)) as [<- | Hne]; [| apply Hh].
  destruct (h !! p) as [c0 |] eqn:E; [| done]. simpl. intros [= <-] Hc.
  simpl in *. destruct b; [| done]. by rewrite (Hp eq_refl c0 eq_refl) in Hc.
Qed.

Lemma move_shape cs increment :
  fits cs ->
  exists o h,
    move cs increment = Ok (o, h) /\
    erase h = erase cs /\
    (forall q c, h !! q = Some c -> hidden c = true -> Selected c = false) /\
    (o = None <-> visible cs = []) /\
    (forall p, o = Some p -> p ∈ visible cs /\ is_selected h p = true).
Proof.
  intros Hfits. destruct (visible cs) as [| first rest] eqn:Hv.
  - exists None, (unselect_hidden <$> cs). rewrite move_none by done.
    split; [done |]. split; [apply erase_unselect_hidden |].
    split; [apply hidden_unselect_hidden |]. split; [done | done].
  - rewrite <- Hv.
    assert (forall pt (h0 : list Choice),
              (exists c, h0 !! pt = Some c) ->
              is_selected (set_Selected true pt h0) pt = true) as Hsel.
    { intros pt h0 [c Hc]. unfold is_selected.
      rewrite lookup_set_Selected, decide_True, Hc by done. done. }
    destruct (current cs) as [[i p] |] eqn:Hc.
    + apply current_Some in Hc as (Hi & Hp & Hb).
      destruct (move_selected cs increment i p Hfits Hi Hp Hb) as (pt & Hpt & ->).
      assert (pt ∈ visible cs) as Hptv by (apply list_elem_of_lookup; eauto).
      destruct (proj1 (elem_of_visible _ _) Hptv) as (ct & Hct & Hht).
      do 2 eexists. split; [done |].
      split; [by rewrite !erase_set_Selected, erase_unselect_hidden |].
      split.
      { apply hidden_set_Selected.
        - intros _ c. rewrite lookup_set_Selected,
            (lookup_unselect_hidden _ _ _ Hct Hht).
          case_decide; simpl; by intros [= <-].
        - apply hidden_set_Selected; [done | apply hidden_unselect_hidden]. }
      split; [by rewrite Hv |].
      intros p' [= <-]. split; [done |]. apply Hsel.
      rewrite lookup_set_Selected, (lookup_unselect_hidden _ _ _ Hct Hht).
      case_decide; simpl; eauto.
    + assert (first ∈ visible cs) as Hfv by (rewrite Hv; left).
      destruct (proj1 (elem_of_visible _ _) Hfv) as (cf & Hcf & Hhf).
      rewrite (move_recover cs increment first rest Hv (current_None cs Hc)).
      do 2 eexists. split; [done |].
      split; [by rewrite erase_set_Selected, erase_unselect_hidden |].
      split.
      { apply hidden_set_Selected; [| apply hidden_unselect_hidden].
        intros _ c. rewrite (lookup_unselect_hidden _ _ _ Hcf Hhf).
        by intros [= <-]. }
      split; [by rewrite Hv |].
      intros p' [= <-]. split; [done |]. apply Hsel.
      rewrite (lookup_unselect_hidden _ _ _ Hcf Hhf). eauto.
Qed.

(** X4.  [move] changes selected flags and nothing else: whatever the
    heap and the increment, it returns a heap of the same length whose
    cells have the ids, the values and the hidden flags they had. *)
Theorem move_touches_flags_only (cs : list Choice) (increment : Z) :
  fits cs ->
  exists o h,
    move cs increment = Ok (o, h) /\
    length h = length cs /\
    forall q c, cs !! q = Some c ->
      exists c', h !! q = Some c' /\
                 Id c' = Id c /\ Value c' = Value c /\ hidden c' = hidden c.
Proof.
  intros Hfits.
  destruct (move_shape cs increment Hfits) as (o & h & Hm & He & _).
  exists o, h. split; [done |]. split; [by apply erase_length |].
  intros q c Hq. by apply (erase_lookup cs h).
Qed.

Lemma move_touches_flags_only_witness :
  exists o h,
    move abc (-7) = Ok (o, h) /\ length h = length abc /\
    forall q c, abc !! q = Some c ->
      exists c', h !! q = Some c' /\
                 Id c' = Id c /\ Value c' = Value c /\ hidden c' = hidden c.
Proof. exact (move_touches_flags_only abc (-7) ltac:(by vm_compute)). Defined.

(** X5.  What [move] returns, on any heap and for any increment: nil
    exactly when no choice is visible, and otherwise a pointer to a visible
    choice whose selected flag is set in the heap it leaves; in that heap
    no hidden choice is selected. *)
Theorem move_returns_visible (cs : list Choice) (increment : Z) :
  fits cs ->
  exists o h,
    move cs increment = Ok (o, h) /\
    (o = None <-> visible cs = []) /\
    (forall p, o = Some p -> p ∈ visible cs /\ is_selected h p = true) /\
    (forall q c, h !! q = Some c -> hidden c = true -> Selected c = false).
Proof.
  intros Hfits.
  destruct (move_shape cs increment Hfits) as (o & h & Hm & _ & Hh & Hn & Hp).
  by exists o, h.
Qed.

Lemma move_returns_visible_witness :
  exists o h,
    move [mkChoice 0 "a" true true; mkChoice 1 "b" false false] 1 = Ok (o, h) /\
    (o = None <-> visible [mkChoice 0 "a" true true; mkChoice 1 "b" false false] = []) /\
    (forall p, o = Some p ->
       p ∈ visible [mkChoice 0 "a" true true; mkChoice 1 "b" false false] /\
       is_selected h p = true) /\
    (forall q c, h !! q = Some c -> hidden c = true -> Selected c = false).
Proof.
  exact (move_returns_visible
           [mkChoice 0 "a" true true; mkChoice 1 "b" false false] 1
           ltac:(by vm_compute)).
Defined.

(** ** Moves on a heap with the selection in place *)

Lemma selection_at_unselect cs o :
  selection_at cs o -> unselect_hidden <$> cs = cs.
Proof.
  intros Hsel. apply list_eq. intros q. rewrite list_lookup_fmap.
  destruct (cs !! q) as [c |] eqn:Hq; [| done]. simpl. f_equal.
  unfold unselect_hidden. destruct (hidden c) eqn:Hh; [| done].
  assert (Selected c = false) as Hs.
  { destruct (Selected c) eqn:Hs; [| done]. exfalso.
    destruct o as [p |]; simpl in Hsel.
    - destruct Hsel as [(cp & Hp & Hhp & _) Hu].
      rewrite (Hu q c Hq Hs) in Hq. congruence.
    - destruct Hsel as [_ Hn]. rewrite (Hn q c Hq) in Hs. done. }
  by rewrite <- Hs, with_Selected_same.
Qed.

Lemma selection_at_current cs p i :
  selection_at cs (Some p) -> visible cs !! i = Some p ->
  current cs = Some (i, p).
Proof.
  intros [(c & Hp & Hh & Hs) Hu] Hi. unfold current. apply list_find_Some.
  split; [done |]. split; [unfold is_selected; by rewrite Hp |].
  intros j y Hj Hlt Hy. unfold is_selected in Hy.
  destruct (visible_lookup _ _ _ Hj) as (cy & Hcy & _). rewrite Hcy in Hy.
  rewrite (Hu y cy Hcy Hy) in Hj.
  pose proof (NoDup_lookup _ _ _ _ (visible_NoDup cs) Hi Hj). lia.
Qed.

Lemma selection_at_index cs p :
  selection_at cs (Some p) -> exists i, visible cs !! i = Some p.
Proof.
  intros [(c & Hp & Hh & _) _]. apply list_elem_of_lookup, elem_of_visible. eauto.
Qed.

(** A move that is not clamped, from the selection at index [i]. *)
Lemma move_unclamped cs p i increment :
  fits cs -> selection_at cs (Some p) -> visible cs !! i = Some p ->
  (0 <= Z.of_nat i + increment < Z.of_nat (length (visible cs)))%Z ->
  exists pt,
    visible cs !! Z.to_nat (Z.of_nat i + increment) = Some pt /\
    move cs increment =
    Ok (Some pt, set_Selected true pt (set_Selected false p cs)) /\
    selection_at (set_Selected true pt (set_Selected false p cs)) (Some pt).
Proof.
  intros Hfits Hsel Hi Hrange.
  pose proof (length_visible_from 0 cs) as HL. fold (visible cs) in HL.
  destruct (current_Some _ _ _ (selection_at_current cs p i Hsel Hi))
    as (_ & Hp & Hb).
  destruct (move_selected cs increment i p Hfits Hi Hp Hb) as (pt & Hpt & Hm).
  rewrite landing_exact in Hpt
    by (unfold fits, GoInt.in_range, GoInt.min_int, GoInt.max_int in *; lia).
  replace (clamp _ _) with (Z.of_nat i + increment)%Z in Hpt
    by (unfold clamp; lia).
  rewrite (selection_at_unselect cs _ Hsel) in Hm.
  exists pt. split; [done |]. split; [done |].
  destruct (move_selection_at cs increment Hfits
              (unique_at_most_one _ (selection_at_unique _ _ Hsel)))
    as (o & h & Hm' & Hsel' & _).
  rewrite Hm in Hm'. by injection Hm' as <- <-.
Qed.

Lemma set_Selected_there_and_back cs p pt :
  selection_at cs (Some p) ->
  set_Selected true p
    (set_Selected false pt (set_Selected true pt (set_Selected false p cs))) = cs.
Proof.
  intros [(c & Hp & Hh & Hs) Hu]. apply list_eq. intros k.
  rewrite !lookup_set_Selected.
  destruct (cs !! k) as [ck |] eqn:Hk; [| by repeat case_decide].
  destruct (decide (p = k)) as [<- | Hpk].
  - replace ck with c by congruence.
    repeat case_decide; simpl; f_equal; destruct c; simpl in *; by subst.
  - destruct (decide (pt = k)) as [<- | Hptk]; [| done]. simpl. f_equal.
    destruct (Selected ck) eqn:E.
    + by specialize (Hu pt ck Hk E).
    + destruct ck. simpl in *. by subst.
Qed.

Lemma move_back cs p i increment :
  fits cs -> selection_at cs (Some p) -> visible cs !! i = Some p ->
  (0 <= Z.of_nat i + increment < Z.of_nat (length (visible cs)))%Z ->
  exists pt h,
    visible cs !! Z.to_nat (Z.of_nat i + increment) = Some pt /\
    move cs increment = Ok (Some pt, h) /\
    move h (- increment) = Ok (Some p, cs).
Proof.
  intros Hfits Hsel Hi Hrange.
  destruct (move_unclamped cs p i increment Hfits Hsel Hi Hrange)
    as (pt & Hpt & Hm & Hsel').
  set (h := set_Selected true pt (set_Selected false p cs)) in *.
  assert (erase h = erase cs) as He by (unfold h; by rewrite !erase_set_Selected).
  exists pt, h. split; [done |]. split; [done |].
  destruct (move_unclamped h pt (Z.to_nat (Z.of_nat i + increment)) (- increment))
    as (p' & Hp' & Hm' & _).
  - unfold fits. by rewrite (erase_length _ _ He).
  - done.
  - by rewrite (visible_erase _ _ He).
  - rewrite (visible_erase _ _ He). pose proof (lookup_lt_Some _ _ _ Hi). lia.
  - rewrite (visible_erase _ _ He) in Hp'.
    replace (Z.to_nat _) with i in Hp' by lia.
    rewrite Hi in Hp'. injection Hp' as <-.
    rewrite Hm'. f_equal. f_equal. unfold h.
    by apply set_Selected_there_and_back.
Qed.

(** X6.  On a heap with the selection in place at index [i] of the visible
    choices, a move down by [step] that stays inside the list is undone by
    the move up by [step], and a move up that stays inside by the move
    down: the same choice is returned and the heap is the one before. *)
Theorem move_down_up (cs : list Choice) (p : Ptr) (i : nat) (step : Z) :
  fits cs ->
  selection_at cs (Some p) ->
  visible cs !! i = Some p ->
  (0 <= step)%Z ->
  ((Z.of_nat i + step < Z.of_nat (length (visible cs)))%Z ->
   exists pt h,
     visible cs !! Z.to_nat (Z.of_nat i + step) = Some pt /\
     moveDown cs step = Ok (Some pt, h) /\ moveUp h step = Ok (Some p, cs)) /\
  ((step <= Z.of_nat i)%Z ->
   exists pt h,
     visible cs !! Z.to_nat (Z.of_nat i - step) = Some pt /\
     moveUp cs step = Ok (Some pt, h) /\ moveDown h step = Ok (Some p, cs)).
Proof.
  intros Hfits Hsel Hi Hstep.
  pose proof (length_visible_from 0 cs) as HL. fold (visible cs) in HL.
  pose proof (lookup_lt_Some _ _ _ Hi) as HiL.
  split; intros Hin; unfold moveUp, moveDown;
    rewrite (neg_exact step)
      by (unfold fits, GoInt.in_range, GoInt.min_int, GoInt.max_int in *; lia).
  - apply (move_back cs p i step); [done | done | done | lia].
  - destruct (move_back cs p i (- step)) as (pt & h & Hpt & Hm & Hback);
      [done | done | done | lia |].
    rewrite Z.opp_involutive in Hback. exists pt, h.
    split; [| done]. by replace (Z.of_nat i - step)%Z with (Z.of_nat i + - step)%Z by lia.
Qed.

Lemma cells_at_selection vals m :
  (m < length vals)%nat -> selection_at (cells_at vals m) (Some m).
Proof.
  intros Hm. destruct (lookup_lt_is_Some_2 vals m Hm) as [v Hv]. split.
  - eexists. rewrite lookup_cells_at, Hv. simpl. rewrite Nat.eqb_refl. done.
  - intros q c. rewrite lookup_cells_at. destruct (vals !! q); [| done].
    simpl. intros [= <-]. simpl. by intros ?%Nat.eqb_eq.
Qed.

Lemma move_down_up_witness :
  exists pt h,
    visible (cells_at ["a"; "b"; "c"] 1) !! Z.to_nat (1 + 1) = Some pt /\
    moveDown (cells_at ["a"; "b"; "c"] 1) 1 = Ok (Some pt, h) /\
    moveUp h 1 = Ok (Some 1%nat, cells_at ["a"; "b"; "c"] 1).
Proof.
  exact (proj1 (move_down_up (cells_at ["a"; "b"; "c"] 1) 1 1 1
                  ltac:(by vm_compute)
                  (cells_at_selection ["a"; "b"; "c"] 1 ltac:(vm_compute; lia))
                  eq_refl ltac:(lia))
           ltac:(by vm_compute)).
Defined.

(** ** A page of no rows *)

(** A move by zero leaves a heap with the selection in place as it is. *)
Lemma move_zero cs o :
  fits cs -> selection_at cs o -> move cs 0 = Ok (o, cs).
Proof.
  intros Hfits Hsel. destruct o as [p |].
  - destruct (selection_at_index cs p Hsel) as [i Hi].
    pose proof (lookup_lt_Some _ _ _ Hi) as HiL.
    destruct (move_unclamped cs p i 0 Hfits Hsel Hi ltac:(lia))
      as (pt & Hpt & -> & _).
    rewrite Z.add_0_r, Nat2Z.id, Hi in Hpt. injection Hpt as <-.
    rewrite set_Selected_back; [done |].
    destruct Hsel as [(c & Hp & _ & Hs) _]. unfold is_selected. by rewrite Hp.
  - pose proof Hsel as [Hv _]. rewrite move_none by done.
    by rewrite (selection_at_unselect cs None Hsel).
Qed.

(** X7.  In a terminal with exactly one row more than the question has
    lines, the page size is 0 and Page Up and Page Down change nothing:
    the session after the key is the session before it. *)
Theorem page_keys_idle (question : string) (choicesToPickFrom : list string)
    (scr : Screen) (pre : list Event) (scr1 : Screen) (s1 : Session) :
  let headerLines := Z.of_nat (length (strings_Split question newline)) in
  fits choicesToPickFrom ->
  choicesToPickFrom <> [] ->
  loop question pre scr (session0 choicesToPickFrom) = Ok (Waiting scr1 s1) ->
  (headerLines < GoInt.max_int)%Z ->
  rows scr1 = (headerLines + 1)%Z ->
  computePageSize scr1 question = 0%Z /\
  handle question (EventKey KeyPgUp) scr1 s1 = Ok (scr1, s1, Running) /\
  handle question (EventKey KeyPgDn) scr1 s1 = Ok (scr1, s1, Running).
Proof.
  intros headerLines Hfits Hne Hl Hq Hrows.
  pose proof (loop_waiting_consistent _ _ _ _ _ _ Hfits Hne Hl) as Hc.
  assert (computePageSize scr1 question = 0%Z) as Hpage.
  { unfold computePageSize. fold headerLines. rewrite Hrows.
    assert ((headerLines + 1 >? headerLines)%Z = true) as -> by lia.
    rewrite add_exact, sub_exact;
      unfold GoInt.in_range, GoInt.min_int, GoInt.max_int in *; lia. }
  split; [done |].
  pose proof (move_zero (choices s1) (selectedChoice s1)
                (consistent_fits _ _ Hc Hfits) (consistent_selection _ _ Hc)) as Hm.
  simpl. rewrite Hpage. unfold navigate, moveUp, moveDown.
  change (GoInt.neg 0) with 0%Z. rewrite Hm. simpl. by destruct s1.
Qed.

Lemma page_keys_idle_witness :
  computePageSize (mkScreen 2 [mkFrame (newChoices 0 ["a"; "b"]) (Some 0%nat) ""])
    "Pick:" = 0%Z.
Proof.
  exact (proj1 (page_keys_idle "Pick:" ["a"; "b"] (mkScreen 2 []) [] _ _
                  ltac:(by vm_compute) ltac:(done) eq_refl
                  ltac:(by vm_compute) eq_refl)).
Defined.

(** ** Backspace drops a byte *)

Lemma drop_last_byte_cons c s :
  s <> EmptyString -> drop_last_byte (String c s) = String c (drop_last_byte s).
Proof. by destruct s. Qed.

Lemma drop_last_byte_app a b :
  b <> EmptyString -> drop_last_byte (a +:+ b) = a +:+ drop_last_byte b.
Proof.
  intros Hb. induction a as [| c a IH]; [done |].
  change (String c a +:+ b) with (String c (a +:+ b)).
  rewrite drop_last_byte_cons, IH; [done |]. by destruct a.
Qed.

Lemma string_length_app a b :
  String.length (a +:+ b) = (String.length a + String.length b)%nat.
Proof. induction a as [| c a IH]; simpl; [done | by rewrite IH]. Qed.

Lemma app_nonempty_neq a b : b <> EmptyString -> a +:+ b <> a.
Proof.
  intros Hb Heq. apply (f_equal String.length) in Heq.
  rewrite string_length_app in Heq. destruct b; [done | simpl in Heq; lia].
Qed.

Lemma app_empty_r a : a +:+ EmptyString = a.
Proof.
  induction a as [| c a IH]; [done |].
  change (String c a +:+ EmptyString) with (String c (a +:+ EmptyString)).
  by rewrite IH.
Qed.

(** The encoding of a rune has one byte exactly for the runes 0 to 127. *)
Lemma string_of_rune_bytes r :
  string_of_rune r <> EmptyString /\
  ((0 <= r < 128)%Z -> drop_last_byte (string_of_rune r) = EmptyString) /\
  (~ (0 <= r < 128)%Z -> drop_last_byte (string_of_rune r) <> EmptyString).
Proof.
  unfold string_of_rune.
  destruct ((r <? 0) || (1114111 <? r) || ((55296 <=? r) && (r <=? 57343)))%Z eqn:E1.
  { split; [done |]. split; [lia | done]. }
  destruct (r <? 128)%Z eqn:E2.
  { split; [done |]. split; [done | lia]. }
  destruct (r <? 2048)%Z; [split; [done |]; split; [lia | done] |].
  destruct (r <? 65536)%Z; split; try done; split; try done; lia.
Qed.

(** A query edit leaves a consistent session with the edited query. *)
Lemma handle_edit question vals ev scr s query :
  fits vals -> consistent vals s ->
  edited (searchQuery s) ev = Some query ->
  exists scr' s',
    handle question ev scr s = Ok (scr', s', Running) /\
    consistent vals s' /\ searchQuery s' = query.
Proof.
  intros Hfits Hc Hev.
  destruct (edit_consistent vals s query Hfits Hc) as (o & h & Hm & Hc').
  destruct ev as [k | |]; try done. destruct k; try done; simpl in *.
  - destruct (0 <? String.length (searchQuery s))%nat; [| done].
    injection Hev as <-. unfold navigate, moveUp, len_choices. simpl.
    rewrite Hm. simpl. eauto.
  - destruct (0 <? String.length (searchQuery s))%nat; [| done].
    injection Hev as <-. unfold navigate, moveUp, len_choices. simpl.
    rewrite Hm. simpl. eauto.
  - injection Hev as <-. unfold navigate, moveUp, len_choices. simpl.
    rewrite Hm. simpl. eauto.
Qed.

(** X8.  Backspace drops the last byte of the query, not its last
    character: typing the rune [r] and pressing Backspace leaves the query
    followed by the encoding of [r] without its last byte.  The query is
    the one before exactly for the one-byte runes 0 to 127; after any
    other rune the leading bytes of its encoding stay in the query. *)
Theorem rune_then_backspace (question : string) (choicesToPickFrom : list string)
    (scr : Screen) (pre : list Event) (scr1 : Screen) (s1 : Session) (r : Z) :
  fits choicesToPickFrom ->
  choicesToPickFrom <> [] ->
  loop question pre scr (session0 choicesToPickFrom) = Ok (Waiting scr1 s1) ->
  exists scr2 s2 scr3 s3,
    handle question (EventKey (KeyRune r)) scr1 s1 = Ok (scr2, s2, Running) /\
    handle question (EventKey KeyBackspace) scr2 s2 = Ok (scr3, s3, Running) /\
    searchQuery s3 = searchQuery s1 +:+ drop_last_byte (string_of_rune r) /\
    ((0 <= r < 128)%Z -> searchQuery s3 = searchQuery s1) /\
    (~ (0 <= r < 128)%Z -> searchQuery s3 <> searchQuery s1).
Proof.
  intros Hfits Hne Hl.
  pose proof (loop_waiting_consistent _ _ _ _ _ _ Hfits Hne Hl) as Hc.
  destruct (string_of_rune_bytes r) as (Hnon & Hone & Hmany).
  destruct (handle_edit question choicesToPickFrom (EventKey (KeyRune r)) scr1 s1
              (searchQuery s1 +:+ string_of_rune r) Hfits Hc eq_refl)
    as (scr2 & s2 & Hh2 & Hc2 & Hq2).
  destruct (handle_edit question choicesToPickFrom (EventKey KeyBackspace) scr2 s2
              (drop_last_byte (searchQuery s2)) Hfits Hc2)
    as (scr3 & s3 & Hh3 & _ & Hq3).
  { simpl. rewrite Hq2, string_length_app.
    destruct (string_of_rune r); [done |]. simpl.
    by replace (0 <? _ + S _)%nat with true by (symmetry; apply Nat.ltb_lt; lia). }
  exists scr2, s2, scr3, s3. split; [done |]. split; [done |].
  rewrite Hq3, Hq2, drop_last_byte_app by done.
  split; [done |]. split.
  - intros Hr. by rewrite (Hone Hr), app_empty_r.
  - intros Hr. apply app_nonempty_neq. by apply Hmany.
Qed.

Lemma rune_then_backspace_witness :
  exists scr2 s2 scr3 s3,
    handle "Pick:" (EventKey (KeyRune 233))
      (mkScreen 24 [mkFrame (newChoices 0 ["caf"]) (Some 0%nat) ""])
      (session0 ["caf"]) = Ok (scr2, s2, Running) /\
    handle "Pick:" (EventKey KeyBackspace) scr2 s2 = Ok (scr3, s3, Running) /\
    searchQuery s3 = "" +:+ drop_last_byte (string_of_rune 233).
Proof.
  destruct (rune_then_backspace "Pick:" ["caf"] (mkScreen 24 []) [] _ _ 233
              ltac:(by vm_compute) ltac:(done) eq_refl)
    as (scr2 & s2 & scr3 & s3 & H2 & H3 & Hq & _).
  exists scr2, s2, scr3, s3. split; [exact H2 |]. split; [exact H3 | exact Hq].
Defined.

(** ** The picker without search: move *)

Lemma index_seq n z :
  (0 <= z < Z.of_nat n)%Z -> index (seq 0 n) z = Ok (Z.to_nat z).
Proof.
  intros Hz. apply index_ok; [lia |]. apply lookup_seq. lia.
Qed.

Lemma legacy_move_from_found cs increment c suf :
  forall pre k,
    Forall (fun c' => Selected c' = false) pre ->
    Selected c = true ->
    (k + length pre < length cs)%nat ->
    Legacy.move_from cs increment k (pre ++ c :: suf) =
    let i := (k + length pre)%nat in
    let t := GoInt.add (Z.of_nat i) increment in
    if ((t <? Z.of_nat (length cs)) && (t >=? 0))%Z
    then Ok (Z.to_nat t, set_Selected true (Z.to_nat t) (set_Selected false i cs))
    else Ok (i, cs).
Proof.
  induction pre as [| c' pre IH]; intros k Hpre Hc Hk; simpl in *.
  - rewrite Nat.add_0_r in *. rewrite Hc.
    destruct ((GoInt.add (Z.of_nat k) increment <? Z.of_nat (length cs))%Z &&
              (GoInt.add (Z.of_nat k) increment >=? 0)%Z) eqn:E; [| done].
    apply andb_true_iff in E as [E1 E2].
    rewrite !index_seq by lia. simpl. by rewrite Nat2Z.id.
  - apply Forall_cons in Hpre as [Hc' Hpre]. rewrite Hc'.
    replace (k + S (length pre))%nat with (S k + length pre)%nat in * by lia.
    by apply IH.
Qed.

Lemma legacy_move_from_none cs increment :
  forall rest k,
    Forall (fun c => Selected c = false) rest ->
    Legacy.move_from cs increment k rest = Panic SomethingWentWrong.
Proof.
  induction rest as [| c rest IH]; intros k Hall; simpl; [done |].
  apply Forall_cons in Hall as [Hc Hall]. rewrite Hc. by apply IH.
Qed.

(** The move of the picker without search, from the first selected choice
    at position [i]. *)
Lemma legacy_move_selected cs increment i c :
  cs !! i = Some c -> Selected c = true ->
  (forall j c', (j < i)%nat -> cs !! j = Some c' -> Selected c' = false) ->
  Legacy.move cs increment =
  let t := GoInt.add (Z.of_nat i) increment in
  if ((t <? Z.of_nat (length cs)) && (t >=? 0))%Z
  then Ok (Z.to_nat t, set_Selected true (Z.to_nat t) (set_Selected false i cs))
  else Ok (i, cs).
Proof.
  intros Hi Hc Hb. unfold Legacy.move.
  pose proof (lookup_lt_Some _ _ _ Hi) as Hlt.
  rewrite <- (take_drop_middle cs i c Hi) at 2.
  rewrite (legacy_move_from_found cs increment c (drop (S i) cs) (take i cs) 0).
  - simpl. by rewrite length_take, Nat.min_l by lia.
  - apply Forall_forall. intros c' Hc'.
    apply list_elem_of_lookup in Hc' as [j Hj].
    assert (j < i)%nat as Hji.
    { apply lookup_lt_Some in Hj. rewrite length_take in Hj. lia. }
    rewrite lookup_take_lt in Hj by done. by eapply Hb.
  - done.
  - rewrite length_take. lia.
Qed.

(** X9.  The two-argument [move] relies on a selected choice: it panics
    with "Something went wrong" on every list in which no choice is
    selected, the empty list included, and on every list with a selected
    choice it returns a choice that is selected in the list it leaves. *)
Theorem legacy_move_panics (cs : list Choice) (increment : Z) :
  (Forall (fun c => Selected c = false) cs ->
   Legacy.move cs increment = Panic SomethingWentWrong) /\
  (Exists (fun c => Selected c = true) cs ->
   exists p h, Legacy.move cs increment = Ok (p, h) /\
               is_selected h p = true /\ length h = length cs).
Proof.
  split; [apply legacy_move_from_none |].
  intros Hex.
  destruct (list_find (fun c => Selected c = true) cs) as [[i c] |] eqn:Hf.
  - apply list_find_Some in Hf as (Hi & Hc & Hb).
    pose proof (lookup_lt_Some _ _ _ Hi) as Hlt.
    rewrite (legacy_move_selected cs increment i c Hi Hc).
    2:{ intros j c' Hj Hc'. specialize (Hb j c' Hc' Hj).
        by destruct (Selected c'). }
    simpl.
    destruct ((GoInt.add (Z.of_nat i) increment <? Z.of_nat (length cs))%Z &&
              (GoInt.add (Z.of_nat i) increment >=? 0)%Z) eqn:E.
    + apply andb_true_iff in E as [E1 E2]. do 2 eexists. split; [done |].
      rewrite !length_set_Selected. split; [| done].
      unfold is_selected. rewrite lookup_set_Selected, decide_True by done.
      destruct (lookup_lt_is_Some_2 (set_Selected false i cs)
                  (Z.to_nat (GoInt.add (Z.of_nat i) increment))) as [x ->];
        [rewrite length_set_Selected; lia | done].
    + do 2 eexists. split; [done |]. split; [| done].
      unfold is_selected. by rewrite Hi.
  - apply list_find_None in Hf. apply Exists_exists in Hex as (c & Hin & Hc).
    rewrite Forall_forall in Hf. by specialize (Hf c Hin).
Qed.

Lemma legacy_move_panics_witness :
  Legacy.move [mkChoice 0 "a" false false; mkChoice 1 "b" false false] 1 =
  Panic SomethingWentWrong /\
  exists p h, Legacy.move abc 1 = Ok (p, h) /\
              is_selected h p = true /\ length h = length abc.
Proof.
  split.
  - exact (proj1 (legacy_move_panics
                    [mkChoice 0 "a" false false; mkChoice 1 "b" false false] 1)
             ltac:(by repeat constructor)).
  - exact (proj2 (legacy_move_panics abc 1)
             ltac:(by right; left)).
Defined.

(** One step of the picker without search, from the first selected choice. *)
Lemma legacy_move_one (cs : list Choice) (i : nat) (c : Choice) :
  fits cs ->
  cs !! i = Some c -> Selected c = true ->
  (forall j c', (j < i)%nat -> cs !! j = Some c' -> Selected c' = false) ->
  Legacy.moveDown cs =
  (if (S i <? length cs)%nat
   then Ok (S i, set_Selected true (S i) (set_Selected false i cs))
   else Ok (i, cs)) /\
  Legacy.moveUp cs =
  (if (0 <? i)%nat
   then Ok (pred i, set_Selected true (pred i) (set_Selected false i cs))
   else Ok (i, cs)).
Proof.
  intros Hfits Hi Hc Hb. pose proof (lookup_lt_Some _ _ _ Hi) as Hlt.
  unfold Legacy.moveDown, Legacy.moveUp.
  rewrite !(legacy_move_selected cs _ i c Hi Hc Hb). simpl.
  rewrite !add_exact
    by (unfold fits, GoInt.in_range, GoInt.min_int, GoInt.max_int in *; lia).
  split.
  - destruct (Nat.ltb_spec (S i) (length cs)).
    + replace ((Z.of_nat i + 1 <? Z.of_nat (length cs))%Z
               && (Z.of_nat i + 1 >=? 0)%Z) with true by lia.
      by replace (Z.to_nat (Z.of_nat i + 1)) with (S i) by lia.
    + by replace ((Z.of_nat i + 1 <? Z.of_nat (length cs))%Z
                  && (Z.of_nat i + 1 >=? 0)%Z) with false by lia.
  - destruct (Nat.ltb_spec 0 i).
    + replace ((Z.of_nat i + -1 <? Z.of_nat (length cs))%Z
               && (Z.of_nat i + -1 >=? 0)%Z) with true by lia.
      by replace (Z.to_nat (Z.of_nat i + -1)) with (pred i) by lia.
    + by replace ((Z.of_nat i + -1 <? Z.of_nat (length cs))%Z
                  && (Z.of_nat i + -1 >=? 0)%Z) with false by lia.
Qed.

(** X10.  In the picker without search a move is one step and the ends of
    the list stop it: from the first selected choice at position [i],
    [moveDown] moves the flag to [i + 1] and returns that choice, unless
    [i] is the last position, and [moveUp] moves it to [i - 1], unless [i]
    is 0; at an end the same choice is returned and the list is left as it
    is. *)
Theorem legacy_move_step (cs : list Choice) (i : nat) (c : Choice) :
  fits cs ->
  cs !! i = Some c -> Selected c = true ->
  (forall j c', (j < i)%nat -> cs !! j = Some c' -> Selected c' = false) ->
  Legacy.moveDown cs =
  (if (S i <? length cs)%nat
   then Ok (S i, set_Selected true (S i) (set_Selected false i cs))
   else Ok (i, cs)) /\
  Legacy.moveUp cs =
  (if (0 <? i)%nat
   then Ok (pred i, set_Selected true (pred i) (set_Selected false i cs))
   else Ok (i, cs)).
Proof. apply legacy_move_one. Qed.

Lemma legacy_move_step_witness :
  Legacy.moveDown (cells_at ["a"; "b"] 1) = Ok (1%nat, cells_at ["a"; "b"] 1).
Proof.
  exact (proj1 (legacy_move_step (cells_at ["a"; "b"] 1) 1
                  (mkChoice 1 "b" true false)
                  ltac:(by vm_compute) eq_refl eq_refl
                  ltac:(intros [| j] c' Hj; [by intros [= <-] | lia]))).
Defined.

(** ** The picker without search: pick *)

Lemma legacy_cells_step vals m :
  fits vals -> (m < length vals)%nat ->
  Legacy.moveDown (cells_at vals m) =
  Ok (legacy_down (length vals) m, cells_at vals (legacy_down (length vals) m)) /\
  Legacy.moveUp (cells_at vals m) =
  Ok (legacy_up m, cells_at vals (legacy_up m)).
Proof.
  intros Hfits Hm. destruct (lookup_lt_is_Some_2 vals m Hm) as [v Hv].
  destruct (legacy_move_one (cells_at vals m) m (mkChoice (Z.of_nat m) v true false))
    as [-> ->].
  - unfold fits. by rewrite length_cells_at.
  - by rewrite lookup_cells_at, Hv; simpl; rewrite Nat.eqb_refl.
  - done.
  - intros j c' Hj. rewrite lookup_cells_at. destruct (vals !! j); [| done].
    simpl. intros [= <-]. simpl. apply Nat.eqb_neq. lia.
  - rewrite length_cells_at. unfold legacy_down, legacy_up. split.
    + destruct (Nat.ltb_spec (S m) (length vals)); [| done].
      by rewrite cells_at_set.
    + destruct (Nat.ltb_spec 0 m).
      * by rewrite cells_at_set by lia.
      * by replace (pred m) with m by lia.
Qed.

Lemma legacy_loop_cursor vals evs :
  fits vals ->
  forall pos,
    (pos < length vals)%nat ->
    exists r,
      Legacy.loop evs (cells_at vals pos) (Some pos) = Ok r /\
      match legacy_cursor (length vals) pos evs with
      | None => r = None
      | Some None => exists pos', r = Some (cells_at vals pos', None)
      | Some (Some pos') =>
          (pos' < length vals)%nat /\ r = Some (cells_at vals pos', Some pos')
      end.
Proof.
  intros Hfits. induction evs as [| ev evs IH]; intros pos Hpos.
  - eexists. split; [done |]. done.
  - destruct (legacy_cells_step vals pos Hfits Hpos) as [Hdown Hup].
    assert (legacy_down (length vals) pos < length vals)%nat as Hd.
    { unfold legacy_down. destruct (Nat.ltb_spec (S pos) (length vals)); lia. }
    assert (legacy_up pos < length vals)%nat as Hu by (unfold legacy_up; lia).
    cbn [Legacy.loop legacy_cursor]. unfold Legacy.handle.
    rewrite Hdown, Hup.
    destruct ev as [k | height |]; [destruct k | |]; simpl;
      try (by apply IH); try (by eexists; split; [done |]; eauto).
    destruct ((r =? 107) || (r =? 119))%Z; [by apply IH |].
    destruct ((r =? 106) || (r =? 115))%Z; [by apply IH |].
    destruct ((r =? 32) || (r =? 108) || (r =? 100))%Z;
      [by eexists; split; [done |]; eauto |].
    destruct (r =? 113)%Z; [by eexists; split; [done |]; eauto |].
    by apply IH.
Qed.

(** What the picker without search returns, read off the cursor. *)
Lemma legacy_pick_reading (choicesToPickFrom : list string) (evs : list Event) :
  fits choicesToPickFrom ->
  choicesToPickFrom <> [] ->
  match legacy_cursor (length choicesToPickFrom) 0 evs with
  | None => Legacy.pick choicesToPickFrom evs = Ok Legacy.Pending
  | Some None =>
      Legacy.pick choicesToPickFrom evs =
      Ok (Legacy.Returned EmptyString (Some "aborted"))
  | Some (Some pos) =>
      exists v, choicesToPickFrom !! pos = Some v /\
                Legacy.pick choicesToPickFrom evs = Ok (Legacy.Returned v None)
  end.
Proof.
  intros Hfits Hne. unfold Legacy.pick.
  destruct choicesToPickFrom as [| v0 vals]; [done |].
  set (input := v0 :: vals) in *.
  change (length input =? 0)%nat with false. cbv iota.
  rewrite cells_at_zero.
  destruct (legacy_loop_cursor input evs Hfits 0 ltac:(simpl; lia))
    as (r & -> & Hr).
  destruct (legacy_cursor (length input) 0 evs) as [[pos |] |].
  - destruct Hr as [Hpos ->]. simpl. rewrite lookup_cells_at.
    destruct (lookup_lt_is_Some_2 input pos Hpos) as [v Hv].
    rewrite Hv. simpl. eauto.
  - destruct Hr as [pos' ->]. done.
  - by subst r.
Qed.

(** X11.  The picker without search is a cursor over the input that
    starts on the first choice: Up, k and w move it one back and Down, j
    and s one forward, and neither leaves the list; Enter, Right, space, l
    and d return the value under the cursor; Escape and q return the error
    "aborted"; every other event is ignored.  No panic is reached, and
    [pick] waits when the events end before a key that returns. *)
Theorem legacy_pick_cursor (choicesToPickFrom : list string) (evs : list Event) :
  fits choicesToPickFrom ->
  choicesToPickFrom <> [] ->
  match legacy_cursor (length choicesToPickFrom) 0 evs with
  | None => Legacy.pick choicesToPickFrom evs = Ok Legacy.Pending
  | Some None =>
      Legacy.pick choicesToPickFrom evs =
      Ok (Legacy.Returned EmptyString (Some "aborted"))
  | Some (Some pos) =>
      exists v, choicesToPickFrom !! pos = Some v /\
                Legacy.pick choicesToPickFrom evs = Ok (Legacy.Returned v None)
  end.
Proof. apply legacy_pick_reading. Qed.

Lemma legacy_pick_cursor_witness :
  exists v,
    ["a"; "b"; "c"] !! 1%nat = Some v /\
    Legacy.pick ["a"; "b"; "c"]
      [EventKey KeyDown; EventKey (KeyRune 106); EventKey KeyLeft;
       EventKey (KeyRune 119); EventKey (KeyRune 100)] =
    Ok (Legacy.Returned v None).
Proof.
  exact (legacy_pick_cursor ["a"; "b"; "c"]
           [EventKey KeyDown; EventKey (KeyRune 106); EventKey KeyLeft;
            EventKey (KeyRune 119); EventKey (KeyRune 100)]
           ltac:(by vm_compute) ltac:(done)).
Defined.

(** ** A terminal too small for the selection *)

(** X12.  In a terminal with fewer than two rows more than the question
    has lines, [render] does not print the selected choice: with the ids
    being the positions and the choice at position [s] selected, the
    choices it prints after the header are those from a position beyond
    [s] on, so neither the selected choice nor any before it is drawn. *)
Theorem render_hides_selection (height : Z) (question : string)
    (cs : list Choice) (s : nat) (c : Choice) :
  let questionLines := strings_Split question newline in
  let headerLines := length questionLines in
  ids_are_positions cs ->
  cs !! s = Some c ->
  (0 <= height <= GoInt.max_int)%Z ->
  (Z.of_nat (length cs) + Z.of_nat headerLines + 2 <= GoInt.max_int)%Z ->
  (height < Z.of_nat headerLines + 2)%Z ->
  exists first,
    (s < first)%nat /\
    Legacy.render height question cs (Some s) =
    Ok (header_of questionLines ++
        imap (fun j c => line_of (Z.of_nat headerLines + Z.of_nat j) c)
             (drop first cs)).
Proof.
  intros questionLines headerLines Hid Hs Hh Hsize Hsmall.
  exists (window_start height headerLines s). split.
  - unfold window_start, bump. destruct (Z.of_nat s >? height)%Z; lia.
  - by apply (render_frame height question cs s c).
Qed.

Lemma render_hides_selection_witness :
  exists first,
    (0 < first)%nat /\
    Legacy.render 2 "Pick:" (six 0) (Some 0%nat) =
    Ok (header_of (strings_Split "Pick:" newline) ++
        imap (fun j c => line_of (Z.of_nat 1 + Z.of_nat j) c) (drop first (six 0))).
Proof.
  exact (render_hides_selection 2 "Pick:" (six 0) 0 (mkChoice 0 "a" true false)
           (newChoices_ids _ (fun c => with_Selected (Id c =? 0)%Z c)
              (fun c => eq_refl))
           eq_refl ltac:(by vm_compute) ltac:(by vm_compute) ltac:(by vm_compute)).
Defined.

(** ** The two pickers on the keys they share *)

Lemma landing_back n pos :
  (Z.of_nat n <= GoInt.max_int)%Z -> (pos < n)%nat ->
  landing n pos (GoInt.neg 1) = legacy_up pos.
Proof.
  intros Hn Hpos. change (GoInt.neg 1) with (-1)%Z.
  rewrite landing_exact
    by (unfold GoInt.in_range, GoInt.min_int, GoInt.max_int in *; lia).
  unfold clamp, legacy_up. lia.
Qed.

Lemma landing_forth n pos :
  (Z.of_nat n <= GoInt.max_int)%Z -> (pos < n)%nat ->
  landing n pos 1 = legacy_down n pos.
Proof.
  intros Hn Hpos. rewrite landing_one by done. unfold legacy_down.
  destruct (Nat.ltb_spec (S pos) n); lia.
Qed.

Lemma cursors_agree question n evs :
  (Z.of_nat n <= GoInt.max_int)%Z ->
  forallb shared evs = true ->
  forall height pos,
    (pos < n)%nat ->
    cursor question n height pos evs = legacy_cursor n pos evs.
Proof.
  intros Hn. induction evs as [| ev evs IH]; intros Hev height pos Hpos; [done |].
  simpl in Hev. apply andb_true_iff in Hev as [Hev Hevs].
  assert (legacy_down n pos < n)%nat as Hd.
  { unfold legacy_down. destruct (Nat.ltb_spec (S pos) n); lia. }
  assert (legacy_up pos < n)%nat as Hu by (unfold legacy_up; lia).
  destruct ev as [k | h |]; [destruct k | |]; try done; cbn [cursor legacy_cursor];
    rewrite ?landing_back, ?landing_forth by done; by apply IH.
Qed.

Lemma shared_no_rune evs :
  forallb shared evs = true ->
  forallb (fun ev => negb (is_rune ev)) evs = true.
Proof.
  induction evs as [| ev evs IH]; [done |]. simpl.
  intros [Hev Hevs]%andb_true_iff. rewrite (IH Hevs), andb_true_r.
  destruct ev as [k | |]; [| done | done]. by destruct k.
Qed.

(** X13.  On the events both pickers handle (Up, Down, Enter, Right,
    Escape, resizes and the events both ignore) the picker with search and
    the picker without it agree: one returns a value exactly when the
    other returns that value, one reports an abort exactly when the other
    does, and one waits exactly when the other does.  A single step never
    lands differently in the two, at either end of the list. *)
Theorem pickers_agree (question : string) (choicesToPickFrom : list string)
    (scr : Screen) (evs : list Event) :
  fits choicesToPickFrom ->
  choicesToPickFrom <> [] ->
  forallb shared evs = true ->
  match Legacy.pick choicesToPickFrom evs with
  | Ok Legacy.Pending =>
      exists scr', pick question choicesToPickFrom scr evs = Ok (Pending scr')
  | Ok (Legacy.Returned v None) =>
      exists scr' id,
        pick question choicesToPickFrom scr evs = Ok (Returned v id None scr')
  | Ok (Legacy.Returned _ (Some _)) =>
      exists scr',
        pick question choicesToPickFrom scr evs =
        Ok (Returned EmptyString 0 (Some ErrNoChoiceSelected) scr')
  | Panic _ => False
  end.
Proof.
  intros Hfits Hne Hev.
  pose proof (pick_browsing question choicesToPickFrom scr evs Hfits Hne
                (shared_no_rune evs Hev)) as Hnew.
  pose proof (legacy_pick_reading choicesToPickFrom evs Hfits Hne) as Hold.
  rewrite (cursors_agree question (length choicesToPickFrom) evs Hfits Hev)
    in Hnew by (destruct choicesToPickFrom; simpl; [done | lia]).
  unfold picked_as in Hnew.
  destruct (legacy_cursor (length choicesToPickFrom) 0 evs) as [[pos |] |].
  - destruct Hold as (v & Hv & ->). destruct Hnew as (scr' & v' & Hv' & ->).
    replace v' with v by congruence. eauto.
  - rewrite Hold. destruct Hnew as (scr' & ->). eauto.
  - by rewrite Hold.
Qed.

Lemma pickers_agree_witness :
  exists scr' id,
    pick "Pick:" ["a"; "b"] (mkScreen 24 [])
      [EventKey KeyDown; EventKey KeyDown; EventResize 3; EventKey KeyUp;
       EventKey KeyUp; EventKey KeyUp; EventKey KeyDown; EventKey KeyRight] =
    Ok (Returned "b" id None scr').
Proof.
  exact (pickers_agree "Pick:" ["a"; "b"] (mkScreen 24 [])
           [EventKey KeyDown; EventKey KeyDown; EventResize 3; EventKey KeyUp;
            EventKey KeyUp; EventKey KeyUp; EventKey KeyDown; EventKey KeyRight]
           ltac:(by vm_compute) ltac:(done) eq_refl).
Defined.
